(** * Prime.Widget.MultipleSelect: a model of [src/main/js/widget.js]

    The widget wraps a [<select multiple="multiple">] control.  It keeps the
    control's option elements, and next to the control a display container
    holding one list ([<ul>]) of rows ([<li>]): one row per chosen option
    (a "chip") followed by the row of the text input.

    The model keeps exactly the part of the document the widget reads and
    writes: the bound control with its options, the rows of the list, and
    whether the list is still attached to the document.  Every method of the
    prototype is a computation in a state-and-exception monad over that
    state, written in the order of the JavaScript statements.  Styling,
    hiding of the control, scrolling and focus are left out.

    The Searcher and the [search] method of the later widget are not part of
    [widget.js]; they are modelled apart, from the specification, and only
    the custom-add row is stated about them.

    After the widget come the parts of the other sources that compute with
    numbers and small states: [PrimeDate], the month header of the
    [DatePicker], the gestures of [Touchable], the listener tables and the
    measures of [PrimeWindow], and [determineZIndex] of [AJAXDialog]. *)

From stdpp Require Import base tactics option list sets strings pretty sorting gmap.
From Stdlib Require Import Ascii.
From Stdlib Require String.

Local Open Scope stdpp_scope.
Set Warnings "-clear-no-such-hyp".

(** ** JavaScript strings

    A string is the sequence of its code units; the model keeps code units
    below 256, one [ascii] each.  [===] on strings is [String.eqb]. *)

Module JS.

(** [s.replace(c, r)] with a one-character string pattern [c]: only the
    first occurrence is replaced, the rest of [s] is copied. *)
Fixpoint replace (c : ascii) (r : string) (s : string) : string :=
  match s with
  | EmptyString => EmptyString
  | String a s' =>
      if Ascii.eqb a c then r +:+ s' else String a (replace c r s')
  end.

(** [s.startsWith(p)]. *)
Definition startsWith (s p : string) : bool := String.prefix p s.

(** [a < b] on strings compares code units from the left; [Array.sort()]
    without a comparator orders strings by it. *)
Definition sort (l : list string) : list string := merge_sort String.le l.

(** [c.toLowerCase()] on one code unit: the letters A to Z and the capital
    letters of Latin-1 (the code units 192 to 222 but for 215, the
    multiplication sign) become the code unit 32 further on; every other
    code unit below 256 stays. *)
Definition lowerChar (c : ascii) : ascii :=
  let n := nat_of_ascii c in
  if (65 <=? n)%nat && (n <=? 90)%nat
     || (192 <=? n)%nat && (n <=? 222)%nat && negb (n =? 215)%nat
  then ascii_of_nat (n + 32) else c.

Fixpoint toLowerCase (s : string) : string :=
  match s with
  | EmptyString => EmptyString
  | String a s' => String (lowerChar a) (toLowerCase s')
  end.

(** [s.indexOf(q) !== -1]. *)
Fixpoint includes (s q : string) : bool :=
  String.prefix q s ||
  match s with
  | EmptyString => false
  | String _ s' => includes s' q
  end.

(** The code units below 256 that [trim] strips, white space and line
    terminators: tab, line feed, vertical tab, form feed, carriage return,
    space, and the no-break space 160. *)
Definition isWhiteSpace (a : ascii) : bool :=
  Ascii.is_space a || (nat_of_ascii a =? 160)%nat.

Fixpoint trimStart (s : string) : string :=
  match s with
  | String a s' => if isWhiteSpace a then trimStart s' else s
  | EmptyString => EmptyString
  end.

(** [s.trim()]. *)
Definition trim (s : string) : string :=
  String.rev (trimStart (String.rev (trimStart s))).

End JS.

(** ** The document *)

(** An [<option>] of the control, seen through [Prime.Dom.Element]: the
    accessors are the wrapper's methods.  [isSelected] is the flag that
    [setAttribute('selected', 'selected')] sets and
    [removeAttribute('selected')] clears. *)
Record OptionElement := mkOption {
  getValue : string;
  getHTML : string;
  isSelected : bool
}.

(** The element handed to the constructor. *)
Record Element := mkElement {
  tagName : string;
  getID : option string;            (* [null] when the element has no id *)
  multiple : option string;         (* [getAttribute('multiple')] *)
  elementOptions : list OptionElement
}.

(** A row built by [selectOption]:
    [<li id=rowID><span>rowHTML</span><a href="#" value=rowValue>X</a></li>]. *)
Record Row := mkRow {
  rowID : string;
  rowHTML : string;
  rowValue : string
}.

(** Events handed to listeners of the widget. *)
Inductive WidgetEvent :=
  | AddOptionEvent (memo : string)
  | SelectOptionEvent (memo : string)
  | DeselectOptionEvent (memo : string).

(** The widget together with the part of the document it owns.

    - [elementID]: the id of the bound control;
    - [options]: [this.element.domElement.options], a live collection, so a
      handle to an option is its current position;
    - [optionList]: the rows of [displayContainerSelectedOptionList] that
      precede [inputOption], first to last;
    - [optionListAttached]: whether that list is still in the document;
    - [searchDisplayed], [inputOptionHidden], [inputValue]: the search row;
    - [fired]: the events dispatched to listeners so far.  [widget.js] holds
      no dispatching call, so no method below writes this field. *)
Record MultipleSelect := mkMultipleSelect {
  elementID : string;
  options : list OptionElement;
  optionList : list Row;
  optionListAttached : bool;
  searchDisplayed : bool;
  inputOptionHidden : bool;
  inputValue : string;
  fired : list WidgetEvent
}.

Definition setOptions (f : list OptionElement → list OptionElement)
    (w : MultipleSelect) : MultipleSelect :=
  mkMultipleSelect (elementID w) (f (options w)) (optionList w)
    (optionListAttached w) (searchDisplayed w) (inputOptionHidden w)
    (inputValue w) (fired w).

Definition setOptionList (f : list Row → list Row)
    (w : MultipleSelect) : MultipleSelect :=
  mkMultipleSelect (elementID w) (options w) (f (optionList w))
    (optionListAttached w) (searchDisplayed w) (inputOptionHidden w)
    (inputValue w) (fired w).

Definition detachOptionList (w : MultipleSelect) : MultipleSelect :=
  mkMultipleSelect (elementID w) (options w) (optionList w)
    false (searchDisplayed w) (inputOptionHidden w)
    (inputValue w) (fired w).

Definition setSearch (displayed hidden : bool) (text : string)
    (w : MultipleSelect) : MultipleSelect :=
  mkMultipleSelect (elementID w) (options w) (optionList w)
    (optionListAttached w) displayed hidden text (fired w).

(** ** Exceptions and the method monad *)

Inductive Exn :=
  | TypeError (message : string)
  | Error (message : string).

(** How a call ends: it returns, or it throws; either way the state reached
    at that point is kept. *)
Inductive Outcome (A : Type) :=
  | Normal (a : A) (w : MultipleSelect)
  | Thrown (e : Exn) (w : MultipleSelect).
Arguments Normal {A} a w.
Arguments Thrown {A} e w.

Definition Method (A : Type) : Type := MultipleSelect → Outcome A.

Definition stateOf {A} (o : Outcome A) : MultipleSelect :=
  match o with Normal _ w => w | Thrown _ w => w end.

Definition returns {A} (o : Outcome A) : bool :=
  match o with Normal _ _ => true | Thrown _ _ => false end.

Definition ret {A} (a : A) : Method A := λ w, Normal a w.

Definition bind {A B} (m : Method A) (k : A → Method B) : Method B :=
  λ w, match m w with
       | Normal a w' => k a w'
       | Thrown e w' => Thrown e w'
       end.

Definition throw {A} (e : Exn) : Method A := λ w, Thrown e w.
Definition gets {A} (f : MultipleSelect → A) : Method A := λ w, Normal (f w) w.
Definition modify (f : MultipleSelect → MultipleSelect) : Method unit :=
  λ w, Normal tt (f w).

Notation "x <- m ;; k" := (bind m (λ x, k))
  (at level 100, m at next level, right associativity, only parsing).
Notation "m ;;; k" := (bind m (λ _, k))
  (at level 100, right associativity, only parsing).

(** A counted [for] loop over the positions [ixs]: the first throw ends it. *)
Fixpoint forEach (ixs : list nat) (body : nat → Method unit) : Method unit :=
  match ixs with
  | [] => ret tt
  | i :: ixs' => body i ;;; forEach ixs' body
  end.

(** ** Looking elements up by id *)

(** The elements of the widget's part of the document that carry an id. *)
Inductive Node :=
  | ControlNode                 (* the bound control, id [I] *)
  | DisplayNode                 (* the display container, [I-display] *)
  | ListNode                    (* the list of rows, [I-option-list] *)
  | RowNode (j : nat)           (* the row at position [j] of [optionList] *)
  | InputOptionNode             (* the row of the input, [I-input-option] *)
  | InputNode.                  (* the input, [I-input] *)

Definition displayID (w : MultipleSelect) : string := elementID w +:+ "-display".
Definition optionListID (w : MultipleSelect) : string := elementID w +:+ "-option-list".
Definition inputOptionID (w : MultipleSelect) : string := elementID w +:+ "-input-option".
Definition inputID (w : MultipleSelect) : string := elementID w +:+ "-input".

(** [Prime.Dom.queryByID(id)]: the first element of the document, in tree
    order, whose id is [id]; [None] is [null].  The display container follows
    the control ([insertAfter]); the list is its child; the rows and then the
    input row are the list's children.  A detached list and everything below
    it are not in the document.  The page is taken to hold no other element
    with one of these ids. *)
Definition queryByID (id : string) (w : MultipleSelect) : option Node :=
  if String.eqb id (elementID w) then Some ControlNode
  else if String.eqb id (displayID w) then Some DisplayNode
  else if negb (optionListAttached w) then None
  else if String.eqb id (optionListID w) then Some ListNode
  else match list_find (λ row, rowID row = id) (optionList w) with
       | Some (j, _) => Some (RowNode j)
       | None =>
           if String.eqb id (inputOptionID w) then Some InputOptionNode
           else if String.eqb id (inputID w) then Some InputNode
           else None
       end.

(** [node.removeFromDOM()] for the nodes a method of the widget can hold: a
    row leaves the list, the list leaves the document.  The other nodes are
    never the answer to a lookup the widget makes (lemma
    [queryByID_makeOptionID] below); the state is left as it is for them. *)
Definition removeFromDOM (node : Node) (w : MultipleSelect) : MultipleSelect :=
  match node with
  | RowNode j => setOptionList (delete j) w
  | ListNode => detachOptionList w
  | _ => w
  end.

(** ** The methods of [Prime.Widget.MultipleSelect.prototype] *)

Definition setSelected (b : bool) (o : OptionElement) : OptionElement :=
  mkOption (getValue o) (getHTML o) b.

Definition notFound (value : string) : Exn :=
  Error ("MultipleSelect doesn't contain an option with the value [" +:+ value +:+ "]").

(** The argument of a handle-taking method is the position of an option in
    the live collection.  A position outside the collection stands for an
    argument that is no element of the control: the [instanceof] guard of
    [selectOption] and [removeOption] rejects it, and [deselectOption], which
    has no guard, fails on its first property access. *)
Definition notAnElement (method : string) : Exn :=
  TypeError ("MultipleSelect#" +:+ method +:+ " only takes Prime.Dom.Element instances").

(** [makeOptionID(option)] *)
Definition makeOptionID (option : OptionElement) (w : MultipleSelect) : string :=
  elementID w +:+ "-option-" +:+ JS.replace " " "-" (getValue option).

(** [findOptionWithValue(value)]: the first option whose value is [value]. *)
Definition findOptionWithValue (value : string) (w : MultipleSelect) : option nat :=
  fst <$> list_find (λ cur, getValue cur = value) (options w).

(** [containsOptionWithValue(value)] *)
Definition containsOptionWithValue (value : string) (w : MultipleSelect) : bool :=
  match findOptionWithValue value w with Some _ => true | None => false end.

(** The code units that the browser's parser or its serializer do not pass
    on as they are: NUL, the carriage return, [&], [<], [>] and the no-break
    space 160. *)
Definition isMarkup (a : ascii) : bool :=
  let n := nat_of_ascii a in
  (n =? 0)%nat || (n =? 13)%nat || (n =? 38)%nat || (n =? 60)%nat
  || (n =? 62)%nat || (n =? 160)%nat.

(** A text that [setHTML] stores and [getHTML] reads back as it is. *)
Fixpoint plainText (s : string) : bool :=
  match s with
  | EmptyString => true
  | String a s' => negb (isMarkup a) && plainText s'
  end.

(** [addOption(value, display)].  The new option is written with
    [setValue(value)] and [setHTML(display)]; the model keeps [display] as
    the inner HTML that [getHTML] reads.  This is the text as it was passed
    when that is a [plainText]; what the browser makes of a text with
    markup or character references in it is not computed here. *)
Definition addOption (value display : string) : Method unit :=
  present <- gets (containsOptionWithValue value) ;;
  if present : bool then ret tt
  else modify (setOptions (λ os, os ++ [mkOption value display false])).

(** [closeSearch()] *)
Definition closeSearch : Method unit :=
  displayed <- gets searchDisplayed ;;
  if displayed : bool
  then modify (λ w, setSearch false true (inputValue w) w)
  else ret tt.

(** [openSearch()] *)
Definition openSearch : Method bool :=
  displayed <- gets searchDisplayed ;;
  (if displayed : bool then ret tt else modify (setSearch true false "")) ;;;
  ret false.

(** [handleKeyEvent(event)], for an event whose [keyCode] is [key];
    [escape] is [Prime.Event.Keys.ESCAPE]. *)
Definition handleKeyEvent (escape key : nat) : Method bool :=
  displayed <- gets searchDisplayed ;;
  if displayed : bool then
    (if (key =? escape)%nat then closeSearch else ret tt) ;;;
    ret true
  else ret true.

(** [deselectOption(option)] *)
Definition deselectOption (i : nat) : Method unit :=
  handle <- gets (λ w, options w !! i) ;;
  match handle with
  | None => throw (TypeError "option.removeAttribute is not a function")
  | Some option =>
      modify (setOptions (alter (setSelected false) i)) ;;;
      id <- gets (makeOptionID option) ;;
      displayOption <- gets (queryByID id) ;;
      match displayOption with
      | Some node => modify (removeFromDOM node)
      | None => ret tt
      end
  end.

(** [deselectOptionWithValue(value)] *)
Definition deselectOptionWithValue (value : string) : Method unit :=
  option <- gets (findOptionWithValue value) ;;
  match option with
  | None => throw (notFound value)
  | Some i => deselectOption i
  end.

(** [selectOption(option)] *)
Definition selectOption (i : nat) : Method unit :=
  handle <- gets (λ w, options w !! i) ;;
  match handle with
  | None => throw (notAnElement "selectOption")
  | Some option =>
      id <- gets (makeOptionID option) ;;
      found <- gets (queryByID id) ;;
      match found with
      | None =>
          modify (setOptions (alter (setSelected true) i)) ;;;
          (* the new row goes right before [inputOption] *)
          modify (setOptionList
                    (λ rows, rows ++ [mkRow id (getHTML option) (getValue option)]))
      | Some _ => ret tt
      end
  end.

(** The click listener [selectOption] puts on the [<a>] of a row, for the
    row at position [j]: it deselects by the row's [value] attribute. *)
Definition clickRow (j : nat) : Method bool :=
  row <- gets (λ w, optionList w !! j) ;;
  match row with
  | Some r => deselectOptionWithValue (rowValue r) ;;; ret false
  | None => ret false
  end.

(** [selectOptionWithValue(value)] *)
Definition selectOptionWithValue (value : string) : Method unit :=
  option <- gets (findOptionWithValue value) ;;
  match option with
  | None => throw (notFound value)
  | Some i => selectOption i
  end.

(** [removeOption(option)] *)
Definition removeOption (i : nat) : Method unit :=
  handle <- gets (λ w, options w !! i) ;;
  match handle with
  | None => throw (notAnElement "removeOption")
  | Some option =>
      modify (setOptions (delete i)) ;;;
      id <- gets (makeOptionID option) ;;
      displayOption <- gets (queryByID id) ;;
      match displayOption with
      | Some node => modify (removeFromDOM node)
      | None => ret tt
      end
  end.

(** [removeOptionWithValue(value)] *)
Definition removeOptionWithValue (value : string) : Method unit :=
  option <- gets (findOptionWithValue value) ;;
  match option with
  | None => throw (notFound value)
  | Some i => removeOption i
  end.

(** [removeAllOptions()]: from the last position down to the first. *)
Definition removeAllOptions : Method unit :=
  n <- gets (λ w, length (options w)) ;;
  forEach (reverse (seq 0 n)) removeOption.

(** [rebuildDisplay()]: the children of the list are removed, a hidden input
    row with an empty input is appended, and every option whose [selected]
    flag is set is passed to [selectOption], first to last. *)
Definition rebuildDisplay : Method unit :=
  modify (setOptionList (λ _, [])) ;;;
  modify (λ w, setSearch (searchDisplayed w) true "" w) ;;;
  n <- gets (λ w, length (options w)) ;;
  forEach (seq 0 n) (λ i,
    option <- gets (λ w, options w !! i) ;;
    match option with
    | Some o => if isSelected o then selectOption i else ret tt
    | None => ret tt
    end).

(** [selectableOptionsForPrefix(prefix)]; [None] is a call without argument
    (or with [null]). *)
Definition selectableOptionsForPrefix (prefix : option string)
    (w : MultipleSelect) : list string :=
  let selectableOptions :=
    omap (λ option,
            if isSelected option then None
            else
              let html := getHTML option in
              match prefix with
              | None => Some html
              | Some p => if JS.startsWith html p then Some html else None
              end)
         (options w) in
  if (0 <? length selectableOptions)%nat then JS.sort selectableOptions
  else selectableOptions.

(** ** The constructor *)

(** The message of the second guard; it quotes [multiple] in double quotes. *)
Definition multipleRequired : string :=
  let quote := String (ascii_of_nat 34) EmptyString in
  "The select box you are attempting to convert to a Prime.Widget.MultipleSelect must have the multiple="
  +:+ quote +:+ "multiple" +:+ quote +:+ " attribute set".

(** How [new Prime.Widget.MultipleSelect(element)] ends.  A guard that
    throws has touched nothing.  An exception thrown later, [Failed], comes
    after the control was hidden and given its id, and the counter is handed
    on as it then is; the [new] expression gives no widget either way. *)
Inductive Construction :=
  | Constructed (w : MultipleSelect) (count : nat)
  | Rejected (e : Exn)
  | Failed (e : Exn) (count : nat).

(** The [TypeError] of the engine for calling [getChildren] on [null]; the
    wording of its message is the engine's. *)
Definition nullList : Exn := TypeError "displayContainerSelectedOptionList is null".

(** [new Prime.Widget.MultipleSelect(element)], with the static counter
    [Prime.Widget.MultipleSelect.count] passed in and out.  [display] is what
    the document holds for the control before the call: [None] when
    [queryByID(id + '-display')] is [null], the usual case of a control
    wrapped for the first time; otherwise what [queryByID(id + '-option-list')]
    finds, the rows of the list an earlier construction left, or [None] when
    the display container is there and its list is not.  In that last case
    [displayContainerSelectedOptionList] is [null], and the first statement
    of [rebuildDisplay] throws. *)
Definition construct (element : Element) (display : option (option (list Row)))
    (count : nat) : Construction :=
  if negb (String.eqb (tagName element) "SELECT") then
    Rejected (TypeError "You can only use Prime.Widget.MultipleSelect with select elements")
  else if negb (bool_decide (multiple element = Some "multiple")) then
    Rejected (TypeError multipleRequired)
  else
    let '(id, count') :=
      match getID element with
      | Some id => (id, count)
      | None => ("prime-multiple-select" +:+ pretty count, S count)
      end in
    let displayContainerSelectedOptionList :=
      match display with
      | None => Some []
      | Some found => found
      end in
    match displayContainerSelectedOptionList with
    | None => Failed nullList count'
    | Some rows =>
        let w0 :=
          mkMultipleSelect id (elementOptions element) rows
            true false true "" [] in
        match rebuildDisplay w0 with
        | Normal _ w => Constructed w count'
        | Thrown e _ => Failed e count'
        end
    end.

(** ** The default search, in the specification's words *)

Record SearchResults := mkSearchResults {
  results : list string;
  tooManyResults : bool
}.

(** [text] contains [queryText] as a substring, letter case ignored. *)
Definition containsIgnoringCase (queryText text : string) : bool :=
  JS.includes (JS.toLowerCase text) (JS.toLowerCase queryText).

(** The display texts, in the control's order, of the options that are not
    selected and whose text passes [keep]. *)
Definition unselectedTexts (keep : string → bool) (w : MultipleSelect) : list string :=
  getHTML <$> filter (λ o, negb (isSelected o) && keep (getHTML o)) (options w).

(** What [selectableOptionsForPrefix] keeps: every text when there is no
    prefix, the texts that start with it otherwise. *)
Definition hasPrefix (prefix : option string) (text : string) : bool :=
  match prefix with
  | None => true
  | Some p => JS.startsWith text p
  end.

(** Modelled from the spec: [MultipleSelect.search(queryText)] of section
    4.1, the default search function the Searcher calls.  [widget.js] has no
    such method (its filter is [selectableOptionsForPrefix]).  The results are
    the sorted display texts of the selectable options (the unselected ones,
    or all of them when duplicates are allowed) that contain the query, case
    ignored; an empty or absent query keeps them all. *)
Definition search (allowDuplicates : bool) (queryText : option string)
    (w : MultipleSelect) : SearchResults :=
  let keep o :=
    (allowDuplicates || negb (isSelected o)) &&
    match queryText with
    | None => true
    | Some q => containsIgnoringCase q (getHTML o)
    end in
  mkSearchResults (JS.sort (getHTML <$> filter (λ o, keep o) (options w))) false.

(** ** The Searcher *)

Module Searcher.

Record Options := mkOptions {
  customAddEnabled : bool;
  allowDuplicates : bool;
  (* [None]: the default, [MultipleSelect.search]; a supplied function
     answers [None] when it throws or returns a malformed value *)
  searchFunction : option (string → option SearchResults)
}.

(** The part of the search state that decides which rows exist. *)
Record SearchState := mkSearchState {
  queryText : string;             (* the text left in the input *)
  resultSet : list string;
  customAddVisible : bool
}.

Definition closed : SearchState := mkSearchState "" [] false.

Definition selectable (o : Options) (w : MultipleSelect) : list OptionElement :=
  filter (λ option, allowDuplicates o || negb (isSelected option)) (options w).

Definition isEmpty (s : string) : bool := String.eqb s "".

(** [this.options.callbackObject.search], the widget's own [search]. *)
Definition callbackSearch := search.

(** Modelled from the spec: [Searcher.search(queryText)], steps 1 to 4 of
    section 4.2, with its failure rule; the Searcher is not among the
    sources, only its tests are.  Step 1 closes the search for a query that
    is all white space; step 3 hands the trimmed query to the search
    function; step 4 compares the entries of the results with the query
    text itself, exactly, letter case included.  Rendering, the highlighted
    row and the opening of the dropdown (steps 5 to 7) are not modelled. *)
Definition search (o : Options) (w : MultipleSelect) (text : string) : SearchState :=
  if negb (isEmpty text) && isEmpty (JS.trim text) then closed        (* 1 *)
  else if isEmpty text && bool_decide (selectable o w = []) then closed (* 2 *)
  else
    let query := JS.trim text in
    let answer :=                                                      (* 3 *)
      match searchFunction o with
      | None => Some (callbackSearch (allowDuplicates o) (Some query) w)
      | Some f => f query
      end in
    let found := match answer with Some r => results r | None => [] end in
    let customAdd :=                                                   (* 4 *)
      customAddEnabled o && negb (isEmpty text)
      && negb (existsb (String.eqb text) found) in
    mkSearchState text found customAdd.

End Searcher.

(** ** Rows and selected options *)

(** A row stands for an option when it carries the option's value. *)
Definition rowsOf (o : OptionElement) (w : MultipleSelect) : list Row :=
  filter (λ row, rowValue row = getValue o) (optionList w).

Definition selectedOf (row : Row) (w : MultipleSelect) : list OptionElement :=
  filter (λ o, isSelected o ∧ getValue o = rowValue row) (options w).

(** Every row stands for exactly one selected option, and every selected
    option has exactly one row. *)
Definition rowsMatchSelection (w : MultipleSelect) : bool :=
  forallb (λ row, (length (selectedOf row w) =? 1)%nat) (optionList w)
  && forallb (λ o, implb (isSelected o) (length (rowsOf o w) =? 1)%nat) (options w).

(** ** Sequences of calls *)

Inductive Call :=
  | AddOption (value display : string)
  | RemoveOptionWithValue (value : string).

Definition call (c : Call) : Method unit :=
  match c with
  | AddOption value display => addOption value display
  | RemoveOptionWithValue value => removeOptionWithValue value
  end.

(** The calls are made one after the other; a call that throws is caught by
    the caller, who goes on with the next one. *)
Fixpoint run (calls : list Call) (w : MultipleSelect) : MultipleSelect :=
  match calls with
  | [] => w
  | c :: calls' => run calls' (stateOf (call c w))
  end.

(** Whether [value] is present after [calls]: the last call that names
    [value] decides, and [before] stands when none does. *)
Fixpoint netPresence (value : string) (calls : list Call) (before : bool) : bool :=
  match calls with
  | [] => before
  | AddOption v _ :: calls' =>
      netPresence value calls' (if String.eqb v value then true else before)
  | RemoveOptionWithValue v :: calls' =>
      netPresence value calls' (if String.eqb v value then false else before)
  end.

(** ** The public interface and its invariant *)

(** The operations of the public interface. *)
Inductive Operation :=
  | AddOptionOp (value display : string)
  | SelectOptionOp (i : nat)
  | SelectOptionWithValueOp (value : string)
  | DeselectOptionOp (i : nat)
  | DeselectOptionWithValueOp (value : string)
  | RemoveOptionOp (i : nat)
  | RemoveOptionWithValueOp (value : string).

Definition perform (op : Operation) : Method unit :=
  match op with
  | AddOptionOp value display => addOption value display
  | SelectOptionOp i => selectOption i
  | SelectOptionWithValueOp value => selectOptionWithValue value
  | DeselectOptionOp i => deselectOption i
  | DeselectOptionWithValueOp value => deselectOptionWithValue value
  | RemoveOptionOp i => removeOption i
  | RemoveOptionWithValueOp value => removeOptionWithValue value
  end.

(** The generated ids of the options are pairwise distinct, and none is the
    id of the list of rows. *)
Definition distinctIDs (w : MultipleSelect) : Prop :=
  NoDup ((λ o, makeOptionID o w) <$> options w) ∧
  ∀ o, o ∈ options w → makeOptionID o w ≠ optionListID w.

(** The list is in the document, each row carries the id made for its
    value, and the values of the rows are, up to their order, the values of
    the selected options. *)
Definition inSync (w : MultipleSelect) : Prop :=
  optionListAttached w = true ∧
  (∀ row, row ∈ optionList w →
     rowID row = makeOptionID (mkOption (rowValue row) (rowHTML row) true) w) ∧
  rowValue <$> optionList w ≡ₚ getValue <$> filter (λ o, isSelected o) (options w).

(** The values of the selected options, in the control's order. *)
Definition selectedValues (os : list OptionElement) : list string :=
  getValue <$> filter (λ o, isSelected o) os.

(** No two options of the control share a value. *)
Definition uniqueValues (w : MultipleSelect) : Prop := NoDup (getValue <$> options w).

(** ** The widgets of the test suite *)

Definition selectElement (id : string) (os : list OptionElement) : Element :=
  mkElement "SELECT" (Some id) (Some "multiple") os.

(** The widget a fresh control [id] gives: no option, no row. *)
Definition fresh (id : string) : MultipleSelect :=
  mkMultipleSelect id [] [] true false true "" [].

(** [one], [two], [three] with [one] and [three] selected, as [beforeEach]
    of the MultipleSelect tests leaves [#multiple-select]. *)
Definition fixture : MultipleSelect :=
  stateOf ((addOption "one" "One" ;;;
            addOption "two" "Two" ;;;
            addOption "three" "Three" ;;;
            selectOptionWithValue "one" ;;;
            selectOptionWithValue "three") (fresh "multiple-select")).

(** Two options whose values differ only by a space against a dash, the first
    one selected. *)
Definition dashed : MultipleSelect :=
  stateOf ((addOption "a b" "A B" ;;;
            addOption "a-b" "A-B" ;;;
            selectOptionWithValue "a b") (fresh "ms")).

(** ** Values that make ids of their own *)

(** A value that passes through [makeOptionID] unchanged and does not give
    the id of the list: it holds no space and is not [list]. *)
Definition plainValue (value : string) : Prop :=
  JS.includes value " " = false ∧ value ≠ "list".

Definition plainValues (w : MultipleSelect) : Prop :=
  Forall (λ o, plainValue (getValue o)) (options w).

Definition plainOperation (op : Operation) : Prop :=
  match op with
  | AddOptionOp value _ => plainValue value
  | _ => True
  end.


(** The row [selectOption] builds for an option. *)
Definition rowFor (w : MultipleSelect) (o : OptionElement) : Row :=
  mkRow (makeOptionID o w) (getHTML o) (getValue o).

(** ** Everything that can happen to a widget *)

(** What can happen to a widget: a call of the public interface, a click on
    the display container ([openSearch]), a call of [closeSearch], a key
    pressed in the container, a click on the remove link of a row, and
    [removeAllOptions]. *)
Inductive Interaction :=
  | Operate (op : Operation)
  | OpenSearch
  | CloseSearch
  | KeyDown (key : nat)
  | ClickRow (j : nat)
  | RemoveAllOptions.

Definition interact (escape : nat) (x : Interaction) (w : MultipleSelect) : MultipleSelect :=
  match x with
  | Operate op => stateOf (perform op w)
  | OpenSearch => stateOf (openSearch w)
  | CloseSearch => stateOf (closeSearch w)
  | KeyDown key => stateOf (handleKeyEvent escape key w)
  | ClickRow j => stateOf (clickRow j w)
  | RemoveAllOptions => stateOf (removeAllOptions w)
  end.

Fixpoint interactAll (escape : nat) (xs : list Interaction) (w : MultipleSelect)
    : MultipleSelect :=
  match xs with
  | [] => w
  | x :: xs' => interactAll escape xs' (interact escape x w)
  end.

(** The state of the search row. *)
Definition searchRow (w : MultipleSelect) : bool * bool * string :=
  (searchDisplayed w, inputOptionHidden w, inputValue w).

(** ** JavaScript numbers

    The numbers the code below computes with are integers: years, months,
    hours, pixels, milliseconds, z-indexes.  [a % b] is the remainder that
    takes the sign of [a], [Z.rem]; a number used as a condition counts as
    true unless it is [0].  A value that may be [undefined] or [NaN] is an
    [option Z]: arithmetic on [None] gives [None], and every comparison with
    [None] is false. *)

Module Num.

Definition truthy (n : Z) : bool := negb (n =? 0)%Z.

Definition sub (a b : option Z) : option Z :=
  match a, b with
  | Some x, Some y => Some (x - y)%Z
  | _, _ => None
  end.

(** [Math.abs]. *)
Definition abs (a : option Z) : option Z := Z.abs <$> a.

(** [a > b]. *)
Definition gt (a b : option Z) : bool :=
  match a, b with
  | Some x, Some y => (y <? x)%Z
  | _, _ => false
  end.

End Num.

(** ** [PrimeDate]

    The functions of [PrimeDate] that compute with the numbers of a date.
    [getHourOfDay] takes the value of [date.getHours()]. *)

Module PrimeDate.

Definition DAYS_IN_MONTH : list Z :=
  [31; 28; 31; 30; 31; 30; 31; 31; 30; 31; 30; 31]%Z.

Definition getHourOfDay (hours : Z) : Z :=
  let hour := Z.rem (hours + 24) 12 in
  if Num.truthy hour then hour else 12%Z.

Definition isLeapYear (year : Z) : bool :=
  negb (Num.truthy (Z.rem year 4)
        || (negb (Num.truthy (Z.rem year 100)) && Num.truthy (Z.rem year 400))).

(** [None] is [undefined], what an array gives for an index it does not
    have. *)
Definition numberOfDaysInMonth (year month : Z) : option Z :=
  if (month =? 1)%Z && isLeapYear year then Some 29%Z
  else if (month <? 0)%Z then None
       else DAYS_IN_MONTH !! Z.to_nat month.

End PrimeDate.

(** ** [Prime.Widgets.DatePicker]

    The month header of the date picker: the [data-month] attribute of the
    month element, which holds a number in decimal and is read back with
    [parseInt], and the element's content. *)

Module DatePicker.

Definition months (month : Z) : option string :=
  match month with
  | 1 => Some "January"
  | 2 => Some "February"
  | 3 => Some "March"
  | 4 => Some "April"
  | 5 => Some "May"
  | 6 => Some "June"
  | 7 => Some "July"
  | 8 => Some "August"
  | 9 => Some "September"
  | 10 => Some "October"
  | 11 => Some "November"
  | 12 => Some "December"
  | _ => None
  end%Z.

(** [monthHTML] is what the month element was last given as content;
    [None] when that was [undefined]. *)
Record DatePicker := mkDatePicker {
  dataMonth : Z;
  monthHTML : option string
}.

(** [now] is the value of [new Date().getMonth()].  String concatenation
    writes an [undefined] table entry as the text [undefined]. *)
Definition _buildDatePicker (now : Z) : DatePicker :=
  mkDatePicker now (Some (default "undefined" (months now))).

Definition _handleNextMonth (picker : DatePicker) : DatePicker :=
  let current := dataMonth picker in
  if (current <? 12)%Z then
    let next := (current + 1)%Z in
    mkDatePicker next (months next)
  else picker.

Definition _handlePreviousMonth (picker : DatePicker) : DatePicker :=
  let current := dataMonth picker in
  if (1 <? current)%Z then
    let previous := (current - 1)%Z in
    mkDatePicker previous (months previous)
  else picker.

Inductive Click := Next | Previous.

Definition click (c : Click) : DatePicker → DatePicker :=
  match c with
  | Next => _handleNextMonth
  | Previous => _handlePreviousMonth
  end.

Definition clicks (cs : list Click) (picker : DatePicker) : DatePicker :=
  foldl (λ p c, click c p) picker cs.

End DatePicker.

(** ** [Touchable]

    The fields a [Touchable] keeps between touch events, the custom events
    it has fired on its element, and the events it has handed to the
    [eventPropagationHandler].  The clock is an argument of the handlers
    that read it. *)

Module Touchable.

Record Touch := mkTouch { pageX : Z; pageY : Z }.

Record TouchEvent := mkTouchEvent { changedTouches : list Touch }.

(** The object [_finished] passes to [fireCustomEvent] ([element] and
    [target] left out). *)
Module Event.
Record t := mk {
  elapsedTime : option Z;
  touchStartX : option Z;
  touchStartY : option Z;
  touchEndX : option Z;
  touchEndY : option Z;
  touchX : option Z;
  touchY : option Z;
  swipe : bool;
  swipeX : bool;
  swipeY : bool;
  longPress : bool
}.
End Event.

Record Touchable := mkTouchable {
  touchStarted : option Z;
  touchStartX : option Z;
  touchStartY : option Z;
  elapsedTime : option Z;
  touchEndX : option Z;
  touchEndY : option Z;
  touchX : option Z;
  touchY : option Z;
  hasPropagationHandler : bool;
  propagated : list TouchEvent;
  moved : list TouchEvent;
  fired : list (string * Event.t)
}.

(** A [Touchable] as its constructor leaves it: no field is assigned yet. *)
Definition new (hasHandler : bool) : Touchable :=
  mkTouchable None None None None None None None None hasHandler [] [] [].

Definition setStart (started x y : option Z) (t : Touchable) : Touchable :=
  mkTouchable started x y (elapsedTime t) (touchEndX t) (touchEndY t)
    (touchX t) (touchY t) (hasPropagationHandler t) (propagated t) (moved t)
    (fired t).

Definition setElapsedTime (elapsed : option Z) (t : Touchable) : Touchable :=
  mkTouchable (touchStarted t) (touchStartX t) (touchStartY t) elapsed
    (touchEndX t) (touchEndY t) (touchX t) (touchY t)
    (hasPropagationHandler t) (propagated t) (moved t) (fired t).

Definition setEnd (x y dx dy : option Z) (t : Touchable) : Touchable :=
  mkTouchable (touchStarted t) (touchStartX t) (touchStartY t)
    (elapsedTime t) x y dx dy (hasPropagationHandler t) (propagated t)
    (moved t) (fired t).

Definition fireCustomEvent (name : string) (event : Event.t) (t : Touchable) :
    Touchable :=
  mkTouchable (touchStarted t) (touchStartX t) (touchStartY t)
    (elapsedTime t) (touchEndX t) (touchEndY t) (touchX t) (touchY t)
    (hasPropagationHandler t) (propagated t) (moved t)
    (fired t ++ [(name, event)]).

Definition fireMove (event : TouchEvent) (t : Touchable) : Touchable :=
  mkTouchable (touchStarted t) (touchStartX t) (touchStartY t)
    (elapsedTime t) (touchEndX t) (touchEndY t) (touchX t) (touchY t)
    (hasPropagationHandler t) (propagated t) (moved t ++ [event]) (fired t).

(** [if (Utils.isDefined(this.eventPropagationHandler)) { ...(event) }]. *)
Definition propagate (event : TouchEvent) (t : Touchable) : Touchable :=
  if hasPropagationHandler t then
    mkTouchable (touchStarted t) (touchStartX t) (touchStartY t)
      (elapsedTime t) (touchEndX t) (touchEndY t) (touchX t) (touchY t)
      (hasPropagationHandler t) (propagated t ++ [event]) (moved t) (fired t)
  else t.

(** A handler returns, or the engine throws its [TypeError] for reading a
    property of [undefined]; the fields assigned until then stay assigned. *)
Inductive Completion :=
  | Returns (t : Touchable)
  | Throws (t : Touchable).

Definition stateOf (c : Completion) : Touchable :=
  match c with
  | Returns t => t
  | Throws t => t
  end.

Definition _collectTouchData (now : Z) (event : TouchEvent) (t : Touchable) :
    Completion :=
  let touchPoints := length (changedTouches event) in
  if (1 <? touchPoints)%nat then Returns t
  else
    let touch := changedTouches event !! 0%nat in
    let t := setElapsedTime (Num.sub (Some now) (touchStarted t)) t in
    match touch with
    | None => Throws t
    | Some touch =>
        let endX := Some (pageX touch) in
        let endY := Some (pageY touch) in
        Returns (setEnd endX endY
                   (Num.sub (touchStartX t) endX)
                   (Num.sub (touchStartY t) endY) t)
    end.

Definition _finished (t : Touchable) : Touchable :=
  let swipe :=
    Num.gt (Num.abs (touchX t)) (Some 50%Z)
    || Num.gt (Num.abs (touchY t)) (Some 50%Z) in
  let swipeX := swipe && Num.gt (Num.abs (touchX t)) (Num.abs (touchY t)) in
  let swipeY := swipe && negb swipeX in
  let longPress := negb swipe && Num.gt (elapsedTime t) (Some 500%Z) in
  let event :=
    Event.mk (elapsedTime t) (touchStartX t) (touchStartY t) (touchEndX t)
      (touchEndY t) (touchX t) (touchY t) swipe swipeX swipeY longPress in
  if longPress then fireCustomEvent "Touchable:longPress" event t
  else if swipeX && Num.gt (touchX t) (Some 0%Z) then
    fireCustomEvent "Touchable:swipeLeft" event t
  else if swipeX then fireCustomEvent "Touchable:swipeRight" event t
  else if swipeY && Num.gt (touchY t) (Some 0%Z) then
    fireCustomEvent "Touchable:swipeUp" event t
  else if swipeY then fireCustomEvent "Touchable:swipeDown" event t
  else t.

Definition _handleTouchCancel (now : Z) (event : TouchEvent) (t : Touchable) :
    Completion :=
  match _collectTouchData now event t with
  | Throws t => Throws t
  | Returns t => Returns (propagate event (_finished t))
  end.

Definition _handleTouchEnd (now : Z) (event : TouchEvent) (t : Touchable) :
    Completion :=
  match _collectTouchData now event t with
  | Throws t => Throws t
  | Returns t => Returns (propagate event (_finished t))
  end.

Definition _handleTouchMove (event : TouchEvent) (t : Touchable) : Touchable :=
  propagate event (fireMove event t).

Definition _handleTouchStart (now : Z) (event : TouchEvent) (t : Touchable) :
    Completion :=
  let touchPoints := length (changedTouches event) in
  if (1 <? touchPoints)%nat then Returns (propagate event t)
  else
    match changedTouches event !! 0%nat with
    | None => Throws (setStart (Some now) (touchStartX t) (touchStartY t) t)
    | Some touch =>
        Returns (propagate event
                   (setStart (Some now) (Some (pageX touch))
                      (Some (pageY touch)) t))
    end.

(** The fields [_finished] reads. *)
Definition measures (t : Touchable) : list (option Z) :=
  [elapsedTime t; touchStartX t; touchStartY t; touchEndX t; touchEndY t;
   touchX t; touchY t].

(** The names of the custom events fired so far. *)
Definition firedNames (t : Touchable) : list string := (fired t).*1.

(** One finger put down at [(x0, y0)] at time [t0] and lifted at
    [(x1, y1)] at time [t1]. *)
Definition gesture (t0 x0 y0 t1 x1 y1 : Z) (t : Touchable) : Completion :=
  match _handleTouchStart t0 (mkTouchEvent [mkTouch x0 y0]) t with
  | Throws t => Throws t
  | Returns t => _handleTouchEnd t1 (mkTouchEvent [mkTouch x1 y1]) t
  end.

End Touchable.

(** ** [PrimeWindow]

    What the functions of [Window.ts] read and write of the browser: the two
    listener tables they keep on [window], the registration methods the
    browser offers with the calls made to them, and the measures of the
    window, of [document.documentElement] and of [document.body].  A
    listener is a function object; the model keeps its identity. *)

Module PrimeWindow.

Definition Listener := nat.

Record Window := mkWindow {
  eventListeners : option (gmap string (list Listener));
  customEventListeners : option (gmap string (list Listener));
  hasAddEventListener : bool;
  hasAttachEvent : bool;
  (** the calls [window.addEventListener(event, listener, false)] *)
  added : list (string * Listener);
  (** the calls [window.attachEvent(name, listener)] *)
  attached : list (string * Listener)
}.

Inductive Completion :=
  | Returns (w : Window)
  | Throws (e : Exn) (w : Window).

Definition stateOf (c : Completion) : Window :=
  match c with
  | Returns w => w
  | Throws _ w => w
  end.

(** A table is an object literal, so [table[event]] finds, for an event the
    table has no entry of its own for, what [Object.prototype] has under
    that name. *)
Definition objectPrototypeNames : list string :=
  ["constructor"; "hasOwnProperty"; "isPrototypeOf"; "propertyIsEnumerable";
   "toLocaleString"; "toString"; "valueOf"; "__proto__"; "__defineGetter__";
   "__defineSetter__"; "__lookupGetter__"; "__lookupSetter__"].

Definition inherited (event : string) : bool :=
  bool_decide (event ∈ objectPrototypeNames).

(** [table = table || {}; table[event] = table[event] || [];
    table[event].push(listener)].  Where the table has no array for the
    event and the name is an inherited one, [|| []] keeps the inherited
    member, which has no [push]: the call of it is the engine's [TypeError],
    and no array of listeners is made.  The result is the table and whether
    [push] was called. *)
Definition push (event : string) (listener : Listener)
    (table : option (gmap string (list Listener))) :
    gmap string (list Listener) * bool :=
  let table := default ∅ table in
  match table !! event with
  | Some listeners => (<[event := listeners ++ [listener]]> table, true)
  | None =>
      if inherited event then (table, false)
      else (<[event := [listener]]> table, true)
  end.

(** The [TypeError] of the engine for calling a [push] that is not there;
    the wording of its message is the engine's. *)
Definition notAFunction : Exn := TypeError "push is not a function".

Definition addEventListener (event : string) (listener : Listener)
    (w : Window) : Completion :=
  if negb (JS.includes event ":") then
    let (table, pushed) := push event listener (eventListeners w) in
    let w :=
      mkWindow (Some table) (customEventListeners w) (hasAddEventListener w)
        (hasAttachEvent w) (added w) (attached w) in
    if negb pushed then Throws notAFunction w
    else if hasAddEventListener w then
      Returns (mkWindow (eventListeners w) (customEventListeners w)
                 (hasAddEventListener w) (hasAttachEvent w)
                 (added w ++ [(event, listener)]) (attached w))
    else if hasAttachEvent w then
      Returns (mkWindow (eventListeners w) (customEventListeners w)
                 (hasAddEventListener w) (hasAttachEvent w) (added w)
                 (attached w ++ [("on" +:+ event, listener)]))
    else
      Throws (TypeError "Unable to set event onto the window. Neither addEventListener nor attachEvent methods are available") w
  else
    let (table, pushed) := push event listener (customEventListeners w) in
    let w :=
      mkWindow (eventListeners w) (Some table) (hasAddEventListener w)
        (hasAttachEvent w) (added w) (attached w) in
    if negb pushed then Throws notAFunction w else Returns w.

(** A caller that goes on after an exception. *)
Definition addEventListeners (calls : list (string * Listener)) (w : Window) :
    Window :=
  foldl (λ w call, stateOf (addEventListener call.1 call.2 w)) w calls.

(** The listeners a table holds for an event; none when the table or the
    entry is [undefined]. *)
Definition listenersOf (event : string)
    (table : option (gmap string (list Listener))) : list Listener :=
  default [] (default ∅ table !! event).

(** The listeners that the calls made with the name [event] pass. *)
Definition listenersFor (event : string) (calls : list (string * Listener)) :
    list Listener :=
  (filter (λ call, call.1 = event) calls).*2.

(** An event that goes to the browser: its name has no colon, and is not
    one [Object.prototype] has. *)
Definition native (event : string) : bool :=
  negb (JS.includes event ":") && negb (inherited event).

(** No table has an entry under a name that [Object.prototype] has; so it
    is on a page where nothing but [addEventListener] writes the tables. *)
Definition ownNames (table : option (gmap string (list Listener))) : Prop :=
  ∀ event, inherited event = true → default ∅ table !! event = None.

Definition plainTables (w : Window) : Prop :=
  ownNames (eventListeners w) ∧ ownNames (customEventListeners w).

(** The window of a page that has not called [addEventListener] yet. *)
Definition freshWindow (hasAdd hasAttach : bool) : Window :=
  mkWindow None None hasAdd hasAttach [] [].

(** An element with the measures the functions read. *)
Record Box := mkBox {
  clientHeight : Z;
  clientWidth : Z;
  scrollTop : Z
}.

(** [innerHeight], [innerWidth] and [pageYOffset] are [None] when the
    property of [window] is not a number. *)
Record Viewport := mkViewport {
  innerHeight : option Z;
  innerWidth : option Z;
  pageYOffset : option Z;
  documentElement : option Box;
  body : option Box
}.

(** [element && element.measure]: the measure when the element exists and
    the measure is not [0]. *)
Definition measure (read : Box → Z) (element : option Box) : option Z :=
  match element with
  | Some box => if Num.truthy (read box) then Some (read box) else None
  | None => None
  end.

Definition getInnerHeight (v : Viewport) : Exn + Z :=
  match innerHeight v with
  | Some height => inr height
  | None =>
      match measure clientHeight (documentElement v) with
      | Some height => inr height
      | None =>
          match measure clientHeight (body v) with
          | Some height => inr height
          | None => inl (Error "Unable to determine inner height of the window")
          end
      end
  end.

Definition getInnerWidth (v : Viewport) : Exn + Z :=
  match innerWidth v with
  | Some width => inr width
  | None =>
      match measure clientWidth (documentElement v) with
      | Some width => inr width
      | None =>
          match measure clientWidth (body v) with
          | Some width => inr width
          | None => inl (Error "Unable to determine inner width of the window")
          end
      end
  end.

Definition getScrollTop (v : Viewport) : Exn + Z :=
  match pageYOffset v with
  | Some offset => inr offset
  | None =>
      match measure scrollTop (body v) with
      | Some offset => inr offset
      | None =>
          match measure scrollTop (documentElement v) with
          | Some offset => inr offset
          | None => inl (Error "Unable to determine scrollTop of the window")
          end
      end
  end.

End PrimeWindow.

(** ** [AJAXDialog]

    [determineZIndex] looks at the elements that carry the dialog's class
    name: of each, whether it is visible and the [parseInt] of its computed
    [z-index], which is [None] ([NaN]) for [auto]. *)

Module AJAXDialog.

Record Dialog := mkDialog {
  zIndex : option Z;
  isVisible : bool
}.

(** The callback of [each] assigns to [highestZIndex]; the fold threads it.
    Where the comparison holds the z-index is a number, and [default] only
    unwraps it. *)
Definition determineZIndex (dialogs : list Dialog) : Z :=
  foldl (λ highestZIndex dialog,
           if isVisible dialog && Num.gt (zIndex dialog) (Some highestZIndex)
           then default highestZIndex (zIndex dialog)
           else highestZIndex)
        0%Z dialogs.

End AJAXDialog.

(** * Properties *)

(** ** The tests of the suite that address methods of [widget.js] *)

(** [containsOptionWithValue], [findOptionWithValue], [addOption],
    [deselectOptionWithValue], [removeOptionWithValue] and
    [selectOptionWithValue] of the MultipleSelect tests, run on the widget
    their [beforeEach] builds: the options of the control, and the ids of the
    rows that precede the input row. *)
Example suite_tests :
  (containsOptionWithValue "one" fixture = true ∧
   containsOptionWithValue "two" fixture = true ∧
   containsOptionWithValue "three" fixture = true ∧
   containsOptionWithValue "four" fixture = false) ∧
  (findOptionWithValue "one" fixture = Some 0 ∧
   options fixture !! 0 = Some (mkOption "one" "One" true)) ∧
  (let w := stateOf (addOption "four" "Four" fixture) in
   options w = [mkOption "one" "One" true; mkOption "two" "Two" false;
                mkOption "three" "Three" true; mkOption "four" "Four" false] ∧
   rowID <$> optionList w = ["multiple-select-option-one"; "multiple-select-option-three"]) ∧
  (let w := stateOf (deselectOptionWithValue "one" fixture) in
   options w = [mkOption "one" "One" false; mkOption "two" "Two" false;
                mkOption "three" "Three" true] ∧
   rowID <$> optionList w = ["multiple-select-option-three"]) ∧
  (let w := stateOf (removeOptionWithValue "one" fixture) in
   options w = [mkOption "two" "Two" false; mkOption "three" "Three" true] ∧
   rowID <$> optionList w = ["multiple-select-option-three"]) ∧
  (let w := stateOf (selectOptionWithValue "two" fixture) in
   options w = [mkOption "one" "One" true; mkOption "two" "Two" true;
                mkOption "three" "Three" true] ∧
   rowID <$> optionList w = ["multiple-select-option-one"; "multiple-select-option-three";
                             "multiple-select-option-two"]).
Proof. done. Qed.

(** ** Running the monad *)

Ltac run_method :=
  unfold bind, gets, modify, ret, throw in *; simpl in *.

Lemma forEach_app (ixs ixs' : list nat) (body : nat → Method unit) (w : MultipleSelect) :
  forEach (ixs ++ ixs') body w =
    match forEach ixs body w with
    | Normal _ w' => forEach ixs' body w'
    | Thrown e w' => Thrown e w'
    end.
Proof.
  revert w. induction ixs as [|i ixs IH]; intros w; simpl; [done|].
  unfold bind. destruct (body i w); [apply IH|done].
Qed.

(** A loop whose body always returns, returns. *)
Lemma forEach_returns (P : MultipleSelect → Prop) (body : nat → Method unit) ixs w :
  (∀ i w, P w → ∃ w', body i w = Normal tt w' ∧ P w') →
  P w → ∃ w', forEach ixs body w = Normal tt w' ∧ P w'.
Proof.
  intros Hbody. revert w. induction ixs as [|i ixs IH]; intros w Hw; simpl.
  - by exists w.
  - destruct (Hbody i w Hw) as (w1 & E & Hw1). unfold bind. rewrite E. by apply IH.
Qed.

(** ** Finding an option by value *)

Lemma findOptionWithValue_Some value w i :
  findOptionWithValue value w = Some i →
  ∃ o, options w !! i = Some o ∧ getValue o = value.
Proof.
  unfold findOptionWithValue. intros H.
  destruct (list_find _ _) as [[j o]|] eqn:E; simplify_eq/=.
  apply list_find_Some in E as (? & ? & _). eauto.
Qed.

Lemma containsOptionWithValue_true value w :
  containsOptionWithValue value w = true ↔ value ∈ getValue <$> options w.
Proof.
  unfold containsOptionWithValue, findOptionWithValue.
  destruct (list_find _ _) as [[j o]|] eqn:E; simpl.
  - apply list_find_Some in E as (Hj & <- & _). split; [intros _|done].
    apply list_elem_of_fmap. exists o. split; [done|]. by eapply list_elem_of_lookup_2.
  - split; [done|]. intros (o & -> & Ho)%list_elem_of_fmap.
    eapply list_find_None, Forall_forall in E; [|done]. done.
Qed.

Lemma containsOptionWithValue_false value w :
  containsOptionWithValue value w = false ↔ value ∉ getValue <$> options w.
Proof.
  rewrite <-containsOptionWithValue_true. by destruct (containsOptionWithValue value w).
Qed.

Lemma containsOptionWithValue_find value w :
  containsOptionWithValue value w = false ↔ findOptionWithValue value w = None.
Proof.
  unfold containsOptionWithValue. by destruct (findOptionWithValue value w).
Qed.

(** ** What the handle-taking methods do to the options *)

Lemma removeFromDOM_options node w : options (removeFromDOM node w) = options w.
Proof. by destruct node. Qed.

Lemma removeFromDOM_fired node w : fired (removeFromDOM node w) = fired w.
Proof. by destruct node. Qed.

Lemma removeOption_options i o w :
  options w !! i = Some o →
  ∃ w', removeOption i w = Normal tt w' ∧ options w' = delete i (options w).
Proof.
  intros Hi. unfold removeOption. run_method. rewrite Hi. simpl.
  destruct (queryByID _ _) as [node|]; eexists; (split; [done|]);
    by rewrite ?removeFromDOM_options.
Qed.

Lemma selectOption_options i o w :
  options w !! i = Some o →
  ∃ w', selectOption i w = Normal tt w' ∧
        (options w' = options w ∨ options w' = alter (setSelected true) i (options w)).
Proof.
  intros Hi. unfold selectOption. run_method. rewrite Hi. simpl.
  destruct (queryByID _ _) as [node|]; eexists; (split; [done|]); auto.
Qed.

Lemma deselectOption_options i o w :
  options w !! i = Some o →
  ∃ w', deselectOption i w = Normal tt w' ∧
        options w' = alter (setSelected false) i (options w).
Proof.
  intros Hi. unfold deselectOption. run_method. rewrite Hi. simpl.
  destruct (queryByID _ _) as [node|]; eexists; (split; [done|]);
    by rewrite ?removeFromDOM_options.
Qed.

(** ** Errors of the value-keyed methods *)

(** C3. When no option has the value [value], [selectOptionWithValue],
    [deselectOptionWithValue] and [removeOptionWithValue] each throw the
    not-found error at once and leave the whole state (options, selection
    flags, rows) as it was; when an option has the value, each returns. *)
Theorem value_keyed_methods_not_found (value : string) (w : MultipleSelect) :
  (containsOptionWithValue value w = false →
     selectOptionWithValue value w = Thrown (notFound value) w ∧
     deselectOptionWithValue value w = Thrown (notFound value) w ∧
     removeOptionWithValue value w = Thrown (notFound value) w) ∧
  (containsOptionWithValue value w = true →
     returns (selectOptionWithValue value w) = true ∧
     returns (deselectOptionWithValue value w) = true ∧
     returns (removeOptionWithValue value w) = true).
Proof.
  split.
  - intros Hno%containsOptionWithValue_find.
    unfold selectOptionWithValue, deselectOptionWithValue, removeOptionWithValue.
    run_method. by rewrite Hno.
  - unfold containsOptionWithValue. intros Hyes.
    destruct (findOptionWithValue value w) as [i|] eqn:E; [|done].
    destruct (findOptionWithValue_Some _ _ _ E) as (o & Hi & _).
    unfold selectOptionWithValue, deselectOptionWithValue, removeOptionWithValue.
    run_method. rewrite E.
    destruct (selectOption_options _ _ _ Hi) as (? & -> & _).
    destruct (deselectOption_options _ _ _ Hi) as (? & -> & _).
    by destruct (removeOption_options _ _ _ Hi) as (? & -> & _).
Qed.

Lemma value_keyed_methods_not_found_witness :
  (selectOptionWithValue "four" fixture = Thrown (notFound "four") fixture ∧
   deselectOptionWithValue "four" fixture = Thrown (notFound "four") fixture ∧
   removeOptionWithValue "four" fixture = Thrown (notFound "four") fixture) ∧
  (returns (selectOptionWithValue "two" fixture) = true ∧
   returns (deselectOptionWithValue "two" fixture) = true ∧
   returns (removeOptionWithValue "two" fixture) = true).
Proof.
  split.
  - apply (proj1 (value_keyed_methods_not_found "four" fixture)). reflexivity.
  - apply (proj2 (value_keyed_methods_not_found "two" fixture)). reflexivity.
Defined.

(** ** Removing every option *)

Lemma removeAllOptions_loop n w :
  length (options w) = n →
  ∃ w', forEach (reverse (seq 0 n)) removeOption w = Normal tt w' ∧ options w' = [].
Proof.
  revert w. induction n as [|n IH]; intros w Hn.
  - exists w. split; [done|]. by apply nil_length_inv.
  - rewrite seq_S, reverse_app. simpl. unfold bind.
    destruct (lookup_lt_is_Some_2 (options w) n) as [o Ho]; [lia|].
    destruct (removeOption_options _ _ _ Ho) as (w1 & -> & Hw1).
    apply IH. rewrite Hw1, length_delete; [lia|done].
Qed.

(** C10. From every state [removeAllOptions] returns, and it leaves no
    option behind: [containsOptionWithValue] is false for every value.  The
    loop walks the live collection from its last position to its first, so
    each position it visits still holds an option. *)
Theorem removeAllOptions_removes_all (w : MultipleSelect) :
  ∃ w', removeAllOptions w = Normal tt w' ∧ options w' = [] ∧
        ∀ value, containsOptionWithValue value w' = false.
Proof.
  unfold removeAllOptions. run_method.
  destruct (removeAllOptions_loop (length (options w)) w eq_refl) as (w' & E & Hw').
  exists w'. split_and!; [done..|].
  intros value. apply containsOptionWithValue_false. rewrite Hw'. apply not_elem_of_nil.
Qed.

(** ** Adding and removing options *)

Section net_presence.
Implicit Types (w : MultipleSelect) (value : string) (calls : list Call).

Lemma addOption_state value display w :
  stateOf (addOption value display w) =
    if containsOptionWithValue value w then w
    else setOptions (λ os, os ++ [mkOption value display false]) w.
Proof. unfold addOption. run_method. by destruct (containsOptionWithValue _ _). Qed.

Lemma removeOptionWithValue_state value w :
  options (stateOf (removeOptionWithValue value w)) =
    match findOptionWithValue value w with
    | Some i => delete i (options w)
    | None => options w
    end.
Proof.
  unfold removeOptionWithValue. run_method.
  destruct (findOptionWithValue value w) as [i|] eqn:E; [|done].
  destruct (findOptionWithValue_Some _ _ _ E) as (o & Hi & _).
  by destruct (removeOption_options _ _ _ Hi) as (w' & -> & Hw').
Qed.

Lemma call_uniqueValues c w : uniqueValues w → uniqueValues (stateOf (call c w)).
Proof.
  unfold uniqueValues. intros Hw. destruct c as [v d|v]; simpl.
  - rewrite addOption_state.
    destruct (containsOptionWithValue v w) eqn:E; [done|]. simpl.
    apply containsOptionWithValue_false in E.
    rewrite fmap_app. apply NoDup_app. split_and!; [done| |apply NoDup_singleton].
    intros x Hx ->%list_elem_of_singleton. done.
  - rewrite removeOptionWithValue_state.
    destruct (findOptionWithValue v w) as [i|]; [|done].
    rewrite list_fmap_delete. eapply sublist_NoDup; [done|apply sublist_delete].
Qed.

(** One call: it decides the presence of the value it names and of no other. *)
Lemma call_contains c value w :
  uniqueValues w →
  containsOptionWithValue value (stateOf (call c w)) =
    match c with
    | AddOption v _ =>
        if String.eqb v value then true else containsOptionWithValue value w
    | RemoveOptionWithValue v =>
        if String.eqb v value then false else containsOptionWithValue value w
    end.
Proof.
  intros Hw. destruct c as [v d|v]; simpl.
  - rewrite addOption_state.
    destruct (String.eqb_spec v value) as [->|Hne].
    + destruct (containsOptionWithValue value w) eqn:E; [done|].
      apply containsOptionWithValue_true. simpl. rewrite fmap_app. set_solver.
    + destruct (containsOptionWithValue v w) eqn:E; [done|].
      apply eq_true_iff_eq. rewrite !containsOptionWithValue_true. simpl.
      rewrite fmap_app. set_solver.
  - pose proof (removeOptionWithValue_state v w) as Hopts.
    destruct (findOptionWithValue v w) as [i|] eqn:E.
    + destruct (findOptionWithValue_Some _ _ _ E) as (o & Hi & Hv).
      assert (options w = take i (options w) ++ o :: drop (S i) (options w)) as Hsplit
        by (by rewrite take_drop_middle).
      assert (options (stateOf (removeOptionWithValue v w))
              = take i (options w) ++ drop (S i) (options w)) as Hdel
        by (by rewrite Hopts, delete_take_drop).
      unfold uniqueValues in Hw. rewrite Hsplit, fmap_app, fmap_cons, Hv in Hw.
      apply NoDup_app in Hw as (_ & Hl & Hr). apply NoDup_cons in Hr as [Hr _].
      destruct (String.eqb_spec v value) as [->|Hne].
      * apply containsOptionWithValue_false. rewrite Hdel, fmap_app.
        intros [H|H]%elem_of_app; [|done]. eapply Hl; [done|]. set_solver.
      * apply eq_true_iff_eq. rewrite !containsOptionWithValue_true.
        rewrite Hdel. rewrite Hsplit at 3. rewrite !fmap_app, fmap_cons, Hv.
        set_solver.
    + assert (options (stateOf (removeOptionWithValue v w)) = options w) as Hsame
        by done.
      destruct (String.eqb_spec v value) as [->|Hne].
      * apply containsOptionWithValue_false. rewrite Hsame.
        by apply containsOptionWithValue_false, containsOptionWithValue_find.
      * apply eq_true_iff_eq. by rewrite !containsOptionWithValue_true, Hsame.
Qed.

Lemma run_contains calls value w :
  uniqueValues w →
  containsOptionWithValue value (run calls w) =
    netPresence value calls (containsOptionWithValue value w).
Proof.
  revert w. induction calls as [|c calls IH]; intros w Hw; simpl; [done|].
  rewrite IH by by apply call_uniqueValues.
  rewrite call_contains by done. by destruct c.
Qed.

(** [netPresence] in words: the value was added at some point and no later
    call removes it, or it was there before and no call removes it. *)
Lemma netPresence_true value calls before :
  netPresence value calls before = true ↔
    (∃ earlier display later,
        calls = earlier ++ AddOption value display :: later ∧
        RemoveOptionWithValue value ∉ later) ∨
    (before = true ∧ RemoveOptionWithValue value ∉ calls).
Proof.
  revert before. induction calls as [|c calls IH]; intros before; simpl.
  - split; [right; split; [done|apply not_elem_of_nil]|].
    intros [(l1 & d & l2 & H & _)|[? _]]; [by destruct l1|done].
  - assert (∀ b, netPresence value calls b = true →
              (∃ earlier display later,
                  c :: calls = earlier ++ AddOption value display :: later ∧
                  RemoveOptionWithValue value ∉ later) ∨
              (b = true ∧ RemoveOptionWithValue value ∉ calls)) as Hfwd.
    { intros b [(l1 & d & l2 & -> & H)|H]%IH; [left|by right].
      by exists (c :: l1), d, l2. }
    assert (∀ b, (∃ earlier display later,
                  c :: calls = earlier ++ AddOption value display :: later ∧
                  RemoveOptionWithValue value ∉ later) →
              (c = AddOption value "" → b = true) →
              (∀ d, c = AddOption value d → b = true) →
              netPresence value calls b = true) as Hbwd.
    { intros b (l1 & d & l2 & H & Hl2) _ Hc. apply IH.
      destruct l1 as [|c' l1]; simplify_eq/=.
      - right. split; [by eapply Hc|done].
      - left. by exists l1, d, l2. }
    destruct c as [v d|v]; destruct (String.eqb_spec v value) as [->|Hne].
    + split.
      * intros [H|[_ H]]%Hfwd; [by left|]. left. by exists [], d, calls.
      * intros [H|[-> H]]; [by apply Hbwd|].
        apply IH. right. split; [done|]. set_solver.
    + split.
      * intros [H|[-> H]]%Hfwd; [by left|]. right. split; [done|]. set_solver.
      * intros [H|[-> H]]; [apply Hbwd; [done|congruence..]|].
        apply IH. right. split; [done|]. set_solver.
    + split.
      * intros [H|[? _]]%Hfwd; [by left|done].
      * intros [H|[_ H]]; [by apply Hbwd|]. set_solver.
    + split.
      * intros [H|[-> H]]%Hfwd; [by left|]. right. split; [done|]. set_solver.
      * intros [H|[-> H]]; [by apply Hbwd|].
        apply IH. right. split; [done|]. set_solver.
Qed.

End net_presence.

(** C6. A control [id] without options gives the fresh widget, and after
    any sequence of [addOption] and [removeOptionWithValue] calls on it,
    [containsOptionWithValue(value)] is true exactly when [value] was added by
    some call and removed by no later one. *)
Theorem containsOptionWithValue_net_presence
    (id : string) (count : nat) (calls : list Call) (value : string) :
  construct (selectElement id []) None count = Constructed (fresh id) count ∧
  (containsOptionWithValue value (run calls (fresh id)) = true ↔
     ∃ earlier display later,
       calls = earlier ++ AddOption value display :: later ∧
       RemoveOptionWithValue value ∉ later).
Proof.
  split; [done|].
  rewrite run_contains by apply NoDup_nil_2.
  rewrite netPresence_true. split; [|by left].
  by intros [?|[? _]].
Qed.

(** ** The options offered for a prefix *)

Lemma sort_sorted (l : list string) : StronglySorted String.le (JS.sort l).
Proof. apply StronglySorted_merge_sort; apply _. Qed.

Lemma sort_permutation (l : list string) : JS.sort l ≡ₚ l.
Proof. apply merge_sort_Permutation. Qed.

(** Whatever algorithm [Array.sort] runs, its answer is the one of
    [JS.sort]: a list has one sorted arrangement. *)
Lemma sort_unique (l sorted : list string) :
  sorted ≡ₚ l → StronglySorted String.le sorted → sorted = JS.sort l.
Proof.
  intros Hp Hs. apply (StronglySorted_unique String.le); [done|apply sort_sorted|].
  by rewrite Hp, sort_permutation.
Qed.

(** The loop of [selectableOptionsForPrefix] collects the texts of the
    unselected options that start with the prefix, in the control's order. *)
Lemma selectable_loop (prefix : option string) (os : list OptionElement) :
  omap (λ option,
          if isSelected option then None
          else match prefix with
               | None => Some (getHTML option)
               | Some p =>
                   if JS.startsWith (getHTML option) p then Some (getHTML option)
                   else None
               end) os
  = getHTML <$> filter (λ o, negb (isSelected o) && hasPrefix prefix (getHTML o)) os.
Proof.
  induction os as [|o os IH]; [done|].
  rewrite filter_cons. simpl. unfold omap in IH. rewrite IH. clear IH.
  unfold hasPrefix. destruct (isSelected o); simpl; [done|].
  destruct prefix as [p|]; simpl; [|done].
  by destruct (JS.startsWith (getHTML o) p).
Qed.

(** C1, as the code has it.  For every prefix, [selectableOptionsForPrefix]
    returns the display texts of exactly the unselected options whose text
    starts with the prefix, letter case included (all unselected texts when
    the prefix is empty or absent), sorted by code units. *)
Theorem selectableOptionsForPrefix_sorted_prefix_matches
    (prefix : option string) (w : MultipleSelect) :
  selectableOptionsForPrefix prefix w ≡ₚ unselectedTexts (hasPrefix prefix) w ∧
  StronglySorted String.le (selectableOptionsForPrefix prefix w) ∧
  unselectedTexts (hasPrefix None) w = unselectedTexts (λ _, true) w ∧
  unselectedTexts (hasPrefix (Some "")) w = unselectedTexts (λ _, true) w.
Proof.
  unfold selectableOptionsForPrefix. rewrite selectable_loop.
  fold (unselectedTexts (hasPrefix prefix) w).
  split_and!; [| |done|].
  - destruct (0 <? _)%nat; [apply sort_permutation|done].
  - destruct (0 <? _)%nat eqn:E; [apply sort_sorted|].
    apply Nat.ltb_ge in E. destruct (unselectedTexts _ w); [constructor|simpl in E; lia].
  - unfold unselectedTexts. f_equal. apply list_filter_iff. intros o. simpl.
    unfold JS.startsWith. by destruct (getHTML o).
Qed.

(** The test [MultipleSelect.search], on the default search in the
    specification's words: seven unselected options, no query and then [t]. *)
Example search_spec_test :
  let w := stateOf ((deselectOptionWithValue "one" ;;;
                     deselectOptionWithValue "three" ;;;
                     addOption "one1" "One1" ;;; addOption "one2" "One2" ;;;
                     addOption "two1" "Two1" ;;; addOption "two2" "Two2") fixture) in
  results (search false None w)
    = ["One"; "One1"; "One2"; "Three"; "Two"; "Two1"; "Two2"] ∧
  results (search false (Some "t") w) = ["Three"; "Two"; "Two1"; "Two2"] ∧
  selectableOptionsForPrefix None w
    = ["One"; "One1"; "One2"; "Three"; "Two"; "Two1"; "Two2"] ∧
  selectableOptionsForPrefix (Some "T") w = ["Three"; "Two"; "Two1"; "Two2"] ∧
  selectableOptionsForPrefix (Some "t") w = [].
Proof. done. Qed.

(** C1, as stated, fails on the code: with [One], [Two], [Three] unselected
    and the query [t], the claim (and the test [MultipleSelect.search]) wants
    [Three], [Two]; no text starts with a lower-case [t], so the code returns
    nothing. *)
Lemma selectableOptionsForPrefix_is_not_substring_search :
  let w := stateOf ((deselectOptionWithValue "one" ;;;
                     deselectOptionWithValue "three") fixture) in
  selectableOptionsForPrefix (Some "t") w = [] ∧
  results (search false (Some "t") w) = ["Three"; "Two"] ∧
  ¬ (selectableOptionsForPrefix (Some "t") w
       ≡ₚ unselectedTexts (containsIgnoringCase "t") w).
Proof.
  split_and!; [done..|].
  intros H%Permutation_length. vm_compute in H. discriminate.
Qed.

(** ** Construction *)

Lemma rebuildDisplay_returns (w : MultipleSelect) :
  ∃ w', rebuildDisplay w = Normal tt w'.
Proof.
  unfold rebuildDisplay. run_method.
  edestruct (forEach_returns (λ _, True)) as (w' & E & _); [|done|by eexists].
  intros i w1 _. run_method.
  destruct (options w1 !! i) as [o|] eqn:Hi; [|by eexists].
  destruct (isSelected o); [|by eexists].
  destruct (selectOption_options _ _ _ Hi) as (w2 & -> & _). by eexists.
Qed.

(** C4, as the code has it.  On a page that holds no display container
    for the control, or holds one together with its list, construction
    throws, and gives no widget, exactly when the element's tag is not
    [SELECT] or its [multiple] attribute is not the string [multiple]; the
    guard throws before anything is touched.  In every other case
    construction completes and gives a widget. *)
Theorem construct_rejects_exactly
    (element : Element) (display : option (option (list Row))) (count : nat) :
  display ≠ Some None →
  ((tagName element ≠ "SELECT" ∨ multiple element ≠ Some "multiple") ↔
     ∃ message, construct element display count = Rejected (TypeError message)) ∧
  ((tagName element = "SELECT" ∧ multiple element = Some "multiple") ↔
     ∃ w count', construct element display count = Constructed w count').
Proof.
  intros Hlist. unfold construct.
  destruct (String.eqb_spec (tagName element) "SELECT") as [Htag|Htag]; simpl.
  - destruct (decide (multiple element = Some "multiple")) as [Hm|Hm].
    + rewrite bool_decide_eq_true_2 by done. simpl.
      destruct display as [[rows|]|]; [|done|];
        destruct (getID element) as [id|];
        match goal with |- context [rebuildDisplay ?w0] =>
          destruct (rebuildDisplay_returns w0) as (w' & ->) end;
        (split; split; [by intros [?|?]|by intros (? & ?)|by eexists _, _|done]).
    + rewrite bool_decide_eq_false_2 by done. simpl.
      split; split; [by eexists|by right|by intros [_ ?]|by intros (? & ? & ?)].
  - split; split; [by eexists|by left|by intros [? _]|by intros (? & ? & ?)].
Qed.

Lemma construct_rejects_exactly_witness :
  let element := mkElement "SELECT" (Some "ms") (Some "multiple")
                   [mkOption "one" "One" true] in
  ((tagName element ≠ "SELECT" ∨ multiple element ≠ Some "multiple") ↔
     ∃ message, construct element (Some (Some [])) 1 = Rejected (TypeError message)) ∧
  ((tagName element = "SELECT" ∧ multiple element = Some "multiple") ↔
     ∃ w count', construct element (Some (Some [])) 1 = Constructed w count').
Proof.
  apply construct_rejects_exactly. discriminate.
Defined.

(** C4, as stated, fails on the code: [<select id="ms" multiple="true">] is
    a select control that carries the [multiple] attribute, so the browser
    lets it hold several values, and the second guard of the constructor
    rejects it because the attribute's text is not [multiple]. *)
Lemma construct_rejects_other_multiple_attribute :
  let element := mkElement "SELECT" (Some "ms") (Some "true") [] in
  tagName element = "SELECT" ∧ is_Some (multiple element) ∧
  construct element None 1 = Rejected (TypeError multipleRequired).
Proof. split_and!; [done|by eexists|done]. Qed.

(** Where the display container is in the document and its list is not,
    the guards pass and [rebuildDisplay] throws on the missing list: no
    widget is made, and the counter was used when the control had no id. *)
Lemma construct_without_list (element : Element) (count : nat) :
  tagName element = "SELECT" → multiple element = Some "multiple" →
  construct element (Some None) count
  = Failed nullList (if getID element is Some _ then count else S count).
Proof.
  intros Htag Hm. unfold construct.
  rewrite Htag, bool_decide_eq_true_2 by done. simpl.
  by destruct (getID element).
Qed.

(** ** Generated ids *)

Lemma append_cons (a : ascii) (s t : string) : String a s +:+ t = String a (s +:+ t).
Proof. done. Qed.

Lemma append_empty_l (s : string) : "" +:+ s = s.
Proof. done. Qed.

Lemma append_empty_r (s : string) : s +:+ "" = s.
Proof. induction s as [|a s IH]; [done|]. by rewrite append_cons, IH. Qed.

(** A generated row id differs from every fixed id of the widget but the one
    of the list: a lookup of it finds nothing, the list, or a row. *)
Lemma queryByID_makeOptionID (o : OptionElement) (w : MultipleSelect) :
  match queryByID (makeOptionID o w) w with
  | None | Some ListNode | Some (RowNode _) => True
  | Some _ => False
  end.
Proof.
  unfold queryByID, makeOptionID, displayID, inputOptionID, inputID.
  set (rest := JS.replace _ _ _).
  destruct (String.eqb_spec (elementID w +:+ "-option-" +:+ rest) (elementID w)) as [E|_].
  { rewrite <-(append_empty_r (elementID w)) in E at 2.
    by apply (inj (String.append _)) in E. }
  destruct (String.eqb_spec (elementID w +:+ "-option-" +:+ rest)
              (elementID w +:+ "-display")) as [E|_].
  { by apply (inj (String.append _)) in E. }
  destruct (negb _); [done|]. destruct (String.eqb _ (optionListID w)); [done|].
  destruct (list_find _ _) as [[j row]|]; [done|].
  destruct (String.eqb_spec (elementID w +:+ "-option-" +:+ rest)
              (elementID w +:+ "-input-option")) as [E|_].
  { by apply (inj (String.append _)) in E. }
  destruct (String.eqb_spec (elementID w +:+ "-option-" +:+ rest)
              (elementID w +:+ "-input")) as [E|_]; [|done].
  by apply (inj (String.append _)) in E.
Qed.

(** [replace] rewrites the first occurrence and copies what follows it. *)
Lemma replace_first (c : ascii) (r before after : string) :
  JS.includes before (String c "") = false →
  JS.replace c r (before +:+ String c after) = before +:+ r +:+ after.
Proof.
  induction before as [|a before IH]; intros Hno.
  - rewrite !append_empty_l. cbn. by rewrite Ascii.eqb_refl.
  - rewrite !append_cons. cbn in Hno |- *. apply orb_false_iff in Hno as [Ha Hno].
    destruct (Ascii.eqb_spec a c) as [->|_].
    + destruct (ascii_dec c c); [|done]. by destruct before.
    + by rewrite IH.
Qed.

(** C9, at the failing input.  For the control [ms] and an option whose
    value is [a b c], [makeOptionID] gives [ms-option-a-b c]: the first space
    is replaced, the second is still there. *)
Theorem makeOptionID_replaces_first_space_only :
  makeOptionID (mkOption "a b c" "A B C" false) (fresh "ms") = "ms-option-a-b c" ∧
  JS.includes (makeOptionID (mkOption "a b c" "A B C" false) (fresh "ms")) " " = true.
Proof. done. Qed.

(** The fixed ids are the control's id with their suffix, and the id of a
    row is the prefix [-option-] and the value, with its first space, when
    it has one, turned into a dash. *)
Lemma generated_ids (o : OptionElement) (w : MultipleSelect) :
  displayID w = elementID w +:+ "-display" ∧
  optionListID w = elementID w +:+ "-option-list" ∧
  inputOptionID w = elementID w +:+ "-input-option" ∧
  inputID w = elementID w +:+ "-input" ∧
  (JS.includes (getValue o) " " = false →
     makeOptionID o w = elementID w +:+ "-option-" +:+ getValue o) ∧
  (∀ before after,
     getValue o = before +:+ String " " after →
     JS.includes before " " = false →
     makeOptionID o w = elementID w +:+ "-option-" +:+ before +:+ "-" +:+ after).
Proof.
  split_and!; [done..| |].
  - intros Hno. unfold makeOptionID. do 2 f_equal.
    induction (getValue o) as [|a s IH]; [done|].
    cbn in Hno |- *. apply orb_false_iff in Hno as [Ha Hno].
    destruct (Ascii.eqb_spec a " ") as [->|_]; [by destruct s|]. by rewrite IH.
  - intros before after Hv Hno. unfold makeOptionID. by rewrite Hv, replace_first.
Qed.

(** ** Selecting an option *)

Lemma selectOption_found i o w :
  options w !! i = Some o →
  is_Some (queryByID (makeOptionID o w) w) →
  selectOption i w = Normal tt w.
Proof.
  intros Hi [node Hq]. unfold selectOption. run_method. by rewrite Hi, Hq.
Qed.

Lemma selectOption_not_found i o w :
  options w !! i = Some o →
  queryByID (makeOptionID o w) w = None →
  selectOption i w =
    Normal tt
      (setOptionList
         (λ rows, rows ++ [mkRow (makeOptionID o w) (getHTML o) (getValue o)])
         (setOptions (alter (setSelected true) i) w)).
Proof.
  intros Hi Hq. unfold selectOption. run_method. by rewrite Hi, Hq.
Qed.

(** While the list is in the document, the id of each of its rows is found. *)
Lemma queryByID_row id row w :
  optionListAttached w = true →
  row ∈ optionList w → rowID row = id →
  is_Some (queryByID id w).
Proof.
  intros Hatt Hin Hid. unfold queryByID. rewrite Hatt. simpl.
  repeat (destruct (String.eqb _ _); [by eexists|]).
  destruct (list_find_elem_of (λ r, rowID r = id) _ _ Hin Hid) as [[j r] ->].
  by eexists.
Qed.

(** While the list is in the document, a second [selectOption] of the same
    option changes nothing. *)
Lemma selectOption_idempotent i w w1 :
  optionListAttached w = true →
  selectOption i w = Normal tt w1 →
  selectOption i w1 = Normal tt w1.
Proof.
  intros Hatt Hsel.
  destruct (options w !! i) as [o|] eqn:Hi;
    [|unfold selectOption in Hsel; run_method; by rewrite Hi in Hsel].
  destruct (queryByID (makeOptionID o w) w) as [node|] eqn:Hq.
  - pose proof (selectOption_found i o w Hi (mk_is_Some _ _ Hq)) as Hsame.
    rewrite Hsame in Hsel. by simplify_eq.
  - rewrite (selectOption_not_found i o w) in Hsel by done. simplify_eq.
    apply (selectOption_found i (setSelected true o)).
    { simpl. by rewrite list_lookup_alter_eq, Hi. }
    eapply (queryByID_row _ (mkRow (makeOptionID o w) (getHTML o) (getValue o)));
      [done| |done].
    simpl. apply elem_of_app. right. by apply list_elem_of_singleton.
Qed.

(** C5, at the failing input.  In the control [ms] the option [a b] is
    selected and has its row; the option [a-b] is not selected and no row
    carries its value.  [selectOption] of [a-b] (position 1), and
    [selectOptionWithValue('a-b')], return without marking it selected and
    without adding a row: [makeOptionID] gives both options the id
    [ms-option-a-b], and the lookup finds the row of [a b]. *)
Theorem selectOption_skips_option_with_colliding_id :
  options dashed = [mkOption "a b" "A B" true; mkOption "a-b" "A-B" false] ∧
  optionList dashed = [mkRow "ms-option-a-b" "A B" "a b"] ∧
  rowsOf (mkOption "a-b" "A-B" false) dashed = [] ∧
  makeOptionID (mkOption "a-b" "A-B" false) dashed = "ms-option-a-b" ∧
  selectOption 1 dashed = Normal tt dashed ∧
  selectOptionWithValue "a-b" dashed = Normal tt dashed.
Proof. done. Qed.

(** ** Rows and selected options *)

Lemma makeOptionID_value o o' w :
  getValue o = getValue o' → makeOptionID o w = makeOptionID o' w.
Proof. unfold makeOptionID. by intros ->. Qed.

Lemma distinctIDs_uniqueValues w : distinctIDs w → uniqueValues w.
Proof.
  intros [Hnd _]. unfold uniqueValues.
  assert ((λ o, makeOptionID o w) <$> options w
          = (λ v, elementID w +:+ "-option-" +:+ JS.replace " " "-" v) <$> (getValue <$> options w)) as E.
  { by rewrite <-list_fmap_compose. }
  rewrite E in Hnd. by eapply NoDup_fmap_1.
Qed.

(** Options at two positions with one id are one option. *)
Lemma distinctIDs_inj w o o' :
  distinctIDs w → o ∈ options w → o' ∈ options w →
  makeOptionID o w = makeOptionID o' w → o = o'.
Proof.
  intros [Hnd _] (i & Hi)%list_elem_of_lookup (j & Hj)%list_elem_of_lookup E.
  assert (i = j) as ->; [|congruence].
  eapply NoDup_lookup; [done|..]; rewrite list_lookup_fmap.
  - by rewrite Hi.
  - rewrite Hj. simpl. by rewrite E.
Qed.

(** What a lookup of a generated id can find. *)
Lemma queryByID_generated o w :
  queryByID (makeOptionID o w) w =
    if optionListAttached w then
      if String.eqb (makeOptionID o w) (optionListID w) then Some ListNode
      else (λ found, RowNode found.1) <$> list_find (λ row, rowID row = makeOptionID o w) (optionList w)
    else None.
Proof.
  pose proof (queryByID_makeOptionID o w) as H. revert H.
  unfold queryByID.
  destruct (String.eqb _ (elementID w)); [done|].
  destruct (String.eqb _ (displayID w)); [done|].
  destruct (optionListAttached w); [|done]. simpl.
  destruct (String.eqb _ (optionListID w)); [done|].
  destruct (list_find _ _) as [[j row]|]; [done|]. simpl.
  destruct (String.eqb _ (inputOptionID w)); [done|].
  by destruct (String.eqb _ (inputID w)).
Qed.

Lemma makeOptionID_elementID o w w' :
  elementID w' = elementID w → makeOptionID o w' = makeOptionID o w.
Proof. unfold makeOptionID. by intros ->. Qed.

(** In a synchronised widget without colliding ids, the lookup of an
    option's id tells whether the option is selected, and finds its row. *)
Lemma queryByID_option o w :
  inSync w → distinctIDs w → o ∈ options w →
  match queryByID (makeOptionID o w) w with
  | Some (RowNode j) =>
      isSelected o = true ∧
      ∃ row, optionList w !! j = Some row ∧ rowValue row = getValue o
  | None => isSelected o = false
  | Some _ => False
  end.
Proof.
  intros (Hatt & Hwf & Hperm) Hdist Ho.
  rewrite queryByID_generated, Hatt.
  destruct (String.eqb_spec (makeOptionID o w) (optionListID w)) as [E|_];
    [by apply Hdist in E|].
  destruct (list_find _ _) as [[j row]|] eqn:Hfind; simpl.
  - apply list_find_Some in Hfind as (Hj & Hid & _).
    assert (rowValue row ∈ getValue <$> filter (λ o, isSelected o) (options w))
      as (o' & Hv & [Hsel Ho']%list_elem_of_filter)%list_elem_of_fmap.
    { rewrite <-Hperm. apply list_elem_of_fmap. exists row. split; [done|].
      by eapply list_elem_of_lookup_2. }
    assert (o' = o) as ->.
    { apply (distinctIDs_inj w); [done..|].
      rewrite <-Hid, (Hwf row) by by eapply list_elem_of_lookup_2.
      by apply makeOptionID_value. }
    split; [by apply Is_true_true|]. eauto.
  - destruct (isSelected o) eqn:Hsel; [|done].
    assert (getValue o ∈ rowValue <$> optionList w)
      as (row & Hv & Hrow)%list_elem_of_fmap.
    { rewrite Hperm. apply list_elem_of_fmap. exists o. split; [done|].
      apply list_elem_of_filter. split; [by apply Is_true_true|done]. }
    eapply list_find_None, Forall_forall in Hfind; [|done].
    exfalso. apply Hfind. rewrite (Hwf row) by done. by apply makeOptionID_value.
Qed.

(** The selected options after one flag or one option changes. *)
Section selected.
Implicit Types (os : list OptionElement) (o : OptionElement) (i : nat).

Lemma setSelected_same o : setSelected (isSelected o) o = o.
Proof. by destruct o. Qed.

Lemma selectedValues_cons o os :
  selectedValues (o :: os) =
    if isSelected o then getValue o :: selectedValues os else selectedValues os.
Proof.
  unfold selectedValues. rewrite filter_cons.
  destruct (isSelected o); by case_decide.
Qed.

Lemma selectedValues_select os i o :
  os !! i = Some o → isSelected o = false →
  selectedValues (alter (setSelected true) i os) ≡ₚ selectedValues os ++ [getValue o].
Proof.
  revert i. induction os as [|x os IH]; intros [|i] Hi Hsel; simplify_eq/=.
  - rewrite !selectedValues_cons, Hsel. simpl.
    by rewrite <-Permutation_cons_append.
  - rewrite !selectedValues_cons. destruct (isSelected x); simpl; rewrite IH; done.
Qed.

Lemma alter_deselect_unselected os i o :
  os !! i = Some o → isSelected o = false →
  alter (setSelected false) i os = os.
Proof.
  intros Hi Hsel. apply list_eq. intros j.
  destruct (decide (i = j)) as [->|Hne].
  - rewrite list_lookup_alter_eq, Hi. simpl. by rewrite <-Hsel, setSelected_same.
  - by rewrite list_lookup_alter_ne.
Qed.

Lemma alter_select_selected os i o :
  os !! i = Some o → isSelected o = true →
  alter (setSelected true) i os = os.
Proof.
  intros Hi Hsel. apply list_eq. intros j.
  destruct (decide (i = j)) as [->|Hne].
  - rewrite list_lookup_alter_eq, Hi. simpl. by rewrite <-Hsel, setSelected_same.
  - by rewrite list_lookup_alter_ne.
Qed.

Lemma selectedValues_deselect os i o :
  os !! i = Some o → isSelected o = true →
  selectedValues os ≡ₚ getValue o :: selectedValues (alter (setSelected false) i os).
Proof.
  revert i. induction os as [|x os IH]; intros [|i] Hi Hsel; simplify_eq/=.
  - by rewrite !selectedValues_cons, Hsel.
  - rewrite !selectedValues_cons. destruct (isSelected x); simpl; [|by apply IH].
    rewrite (IH i) by done. apply Permutation_swap.
Qed.

Lemma selectedValues_delete os i o :
  os !! i = Some o →
  selectedValues os ≡ₚ
    if isSelected o then getValue o :: selectedValues (delete i os)
    else selectedValues (delete i os).
Proof.
  revert i. induction os as [|x os IH]; intros [|i] Hi; simplify_eq/=.
  - rewrite !selectedValues_cons. by destruct (isSelected o).
  - rewrite !selectedValues_cons. specialize (IH i Hi).
    destruct (isSelected x), (isSelected o); simpl; rewrite IH; try done.
    apply Permutation_swap.
Qed.

Lemma selectedValues_add os o :
  isSelected o = false → selectedValues (os ++ [o]) = selectedValues os.
Proof.
  intros Hsel. unfold selectedValues. rewrite filter_app, filter_cons.
  rewrite decide_False by (rewrite Hsel; naive_solver).
  by rewrite filter_nil, app_nil_r.
Qed.
End selected.

(** The state each handle-taking method leaves, by what the lookup finds. *)
Lemma selectOption_state i o w :
  options w !! i = Some o →
  selectOption i w =
    Normal tt
      match queryByID (makeOptionID o w) w with
      | None =>
          setOptionList
            (λ rows, rows ++ [mkRow (makeOptionID o w) (getHTML o) (getValue o)])
            (setOptions (alter (setSelected true) i) w)
      | Some _ => w
      end.
Proof.
  intros Hi. unfold selectOption. run_method. rewrite Hi. simpl.
  by destruct (queryByID _ _).
Qed.

Lemma deselectOption_state i o w :
  options w !! i = Some o →
  deselectOption i w =
    Normal tt
      match queryByID (makeOptionID o w) w with
      | None => setOptions (alter (setSelected false) i) w
      | Some node => removeFromDOM node (setOptions (alter (setSelected false) i) w)
      end.
Proof.
  intros Hi. unfold deselectOption. run_method. rewrite Hi. simpl.
  by destruct (queryByID _ _).
Qed.

Lemma removeOption_state i o w :
  options w !! i = Some o →
  removeOption i w =
    Normal tt
      match queryByID (makeOptionID o w) w with
      | None => setOptions (delete i) w
      | Some node => removeFromDOM node (setOptions (delete i) w)
      end.
Proof.
  intros Hi. unfold removeOption. run_method. rewrite Hi. simpl.
  by destruct (queryByID _ _).
Qed.

Section in_sync.
Implicit Types (w : MultipleSelect) (i : nat) (o : OptionElement).

(** The rows of a synchronised widget stay well formed when rows leave. *)
Lemma inSync_intro w w' :
  inSync w →
  elementID w' = elementID w →
  optionListAttached w' = optionListAttached w →
  optionList w' ⊆ optionList w →
  rowValue <$> optionList w' ≡ₚ getValue <$> filter (λ o, isSelected o) (options w') →
  inSync w'.
Proof.
  intros (Hatt & Hwf & _) Hid Hatt' Hsub Hperm. split_and!; [congruence| |done].
  intros row Hrow%Hsub. rewrite (Hwf row Hrow). symmetry.
  by apply makeOptionID_elementID.
Qed.

Lemma row_removed (rows : list Row) j row (others : list string) :
  rows !! j = Some row →
  rowValue <$> rows ≡ₚ rowValue row :: others →
  rowValue <$> delete j rows ≡ₚ others.
Proof.
  intros Hj Hperm. apply (Permutation_cons_inv (a:=rowValue row)).
  rewrite <-Hperm. rewrite (delete_Permutation rows j row) at 2 by done. done.
Qed.

Lemma selectOption_inSync i w :
  inSync w → distinctIDs w → inSync (stateOf (selectOption i w)).
Proof.
  intros Hsync Hdist.
  destruct (options w !! i) as [o|] eqn:Hi;
    [|unfold selectOption; run_method; by rewrite Hi].
  rewrite (selectOption_state i o) by done. simpl.
  pose proof (queryByID_option o w Hsync Hdist (list_elem_of_lookup_2 _ _ _ Hi)) as Hq.
  destruct (queryByID _ _) as [node|]; [done|].
  destruct Hsync as (Hatt & Hwf & Hperm). split_and!; simpl; [done| |].
  - intros row [Hrow| ->%list_elem_of_singleton]%elem_of_app; [by apply Hwf|done].
  - rewrite fmap_app, Hperm. simpl.
    symmetry. by apply selectedValues_select.
Qed.

Lemma deselectOption_inSync i w :
  inSync w → distinctIDs w → inSync (stateOf (deselectOption i w)).
Proof.
  intros Hsync Hdist.
  destruct (options w !! i) as [o|] eqn:Hi;
    [|unfold deselectOption; run_method; by rewrite Hi].
  rewrite (deselectOption_state i o) by done. simpl.
  pose proof (queryByID_option o w Hsync Hdist (list_elem_of_lookup_2 _ _ _ Hi)) as Hq.
  destruct (queryByID _ _) as [[| | |j| |]|]; try done.
  - destruct Hq as (Hsel & row & Hj & Hv).
    apply (inSync_intro w); simpl; [done..|apply list_subseteq_delete|].
    apply (row_removed _ _ row); [done|]. rewrite Hv.
    destruct Hsync as (_ & _ & ->). by apply selectedValues_deselect.
  - apply (inSync_intro w); simpl; [done..|].
    rewrite (alter_deselect_unselected _ _ o) by done. apply Hsync.
Qed.

Lemma removeOption_inSync i w :
  inSync w → distinctIDs w → inSync (stateOf (removeOption i w)).
Proof.
  intros Hsync Hdist.
  destruct (options w !! i) as [o|] eqn:Hi;
    [|unfold removeOption; run_method; by rewrite Hi].
  rewrite (removeOption_state i o) by done. simpl.
  pose proof (queryByID_option o w Hsync Hdist (list_elem_of_lookup_2 _ _ _ Hi)) as Hq.
  pose proof (selectedValues_delete (options w) i o Hi) as Hdel.
  destruct (queryByID _ _) as [[| | |j| |]|]; try done.
  - destruct Hq as (Hsel & row & Hj & Hv). rewrite Hsel in Hdel.
    apply (inSync_intro w); simpl; [done..|apply list_subseteq_delete|].
    apply (row_removed _ _ row); [done|]. rewrite Hv.
    by destruct Hsync as (_ & _ & ->).
  - rewrite Hq in Hdel.
    apply (inSync_intro w); simpl; [done..|].
    destruct Hsync as (_ & _ & ->). done.
Qed.

Lemma addOption_inSync value display w :
  inSync w → inSync (stateOf (addOption value display w)).
Proof.
  intros Hsync. rewrite addOption_state.
  destruct (containsOptionWithValue value w); [done|].
  apply (inSync_intro w); simpl; [done..|].
  destruct Hsync as (_ & _ & ->).
  pose proof (selectedValues_add (options w) (mkOption value display false) eq_refl) as E.
  unfold selectedValues in E. by rewrite E.
Qed.

(** Every operation of the public interface keeps a widget without
    colliding ids synchronised. *)
Lemma perform_inSync op w :
  inSync w → distinctIDs w → inSync (stateOf (perform op w)).
Proof.
  intros Hsync Hdist.
  destruct op as [v d|i|v|i|v|i|v]; simpl;
    [by apply addOption_inSync|by apply selectOption_inSync|
    |by apply deselectOption_inSync| |by apply removeOption_inSync|].
  - unfold selectOptionWithValue. run_method.
    destruct (findOptionWithValue v w); [by apply selectOption_inSync|done].
  - unfold deselectOptionWithValue. run_method.
    destruct (findOptionWithValue v w); [by apply deselectOption_inSync|done].
  - unfold removeOptionWithValue. run_method.
    destruct (findOptionWithValue v w); [by apply removeOption_inSync|done].
Qed.
End in_sync.

Lemma filter_none {A} (P : A → Prop) `{∀ x, Decision (P x)} (l : list A) :
  Forall (λ x, ¬ P x) l → filter P l = [].
Proof.
  induction 1 as [|x l Hx _ IH]; [done|]. by rewrite filter_cons, decide_False.
Qed.

(** In a list without two elements of the same key, one element has a
    given key at most, and it is the only one a filter on that key keeps. *)
Lemma filter_unique_key {A B} `{EqDecision B} (f : A → B)
    (P : A → Prop) `{∀ x, Decision (P x)} (l : list A) (x : A) :
  NoDup (f <$> l) → x ∈ l → P x →
  length (filter (λ y, P y ∧ f y = f x) l) = 1.
Proof.
  induction l as [|y l IH]; intros Hnd Hx HP; [by apply elem_of_nil in Hx|].
  rewrite fmap_cons in Hnd. apply NoDup_cons in Hnd as [Hy Hnd].
  rewrite filter_cons. apply elem_of_cons in Hx as [->|Hx].
  - rewrite decide_True by done. simpl. f_equal. apply length_zero_iff_nil.
    apply filter_none, Forall_forall. intros z Hz [_ E]. apply Hy. rewrite <-E.
    apply list_elem_of_fmap. eauto.
  - rewrite decide_False; [by apply IH|]. intros [_ E]. apply Hy. rewrite E.
    apply list_elem_of_fmap. eauto.
Qed.

Lemma alter_setSelected_values (b : bool) i (os : list OptionElement) :
  getValue <$> alter (setSelected b) i os = getValue <$> os.
Proof.
  apply list_eq. intros j. rewrite !list_lookup_fmap, list_lookup_alter.
  case_decide; [subst|done]. by destruct (os !! j).
Qed.

Lemma perform_uniqueValues op w : uniqueValues w → uniqueValues (stateOf (perform op w)).
Proof.
  unfold uniqueValues. intros Hw.
  assert (∀ i, NoDup (getValue <$> options (stateOf (selectOption i w)))) as Hselect.
  { intros i. destruct (options w !! i) as [o|] eqn:Hi;
      [|unfold selectOption; run_method; by rewrite Hi].
    destruct (selectOption_options _ _ _ Hi) as (w' & -> & [Hw' | Hw']);
      simpl; rewrite Hw'; [done|].
    by rewrite alter_setSelected_values. }
  assert (∀ i, NoDup (getValue <$> options (stateOf (deselectOption i w)))) as Hdeselect.
  { intros i. destruct (options w !! i) as [o|] eqn:Hi;
      [|unfold deselectOption; run_method; by rewrite Hi].
    destruct (deselectOption_options _ _ _ Hi) as (w' & -> & Hw'); simpl.
    by rewrite Hw', alter_setSelected_values. }
  assert (∀ i, NoDup (getValue <$> options (stateOf (removeOption i w)))) as Hremove.
  { intros i. destruct (options w !! i) as [o|] eqn:Hi;
      [|unfold removeOption; run_method; by rewrite Hi].
    destruct (removeOption_options _ _ _ Hi) as (w' & -> & Hw'); simpl.
    rewrite Hw', list_fmap_delete. eapply sublist_NoDup; [done|apply sublist_delete]. }
  destruct op as [v d|i|v|i|v|i|v]; simpl; try done.
  - apply (call_uniqueValues (AddOption v d)), Hw.
  - unfold selectOptionWithValue. run_method.
    destruct (findOptionWithValue v w); [apply Hselect|done].
  - unfold deselectOptionWithValue. run_method.
    destruct (findOptionWithValue v w); [apply Hdeselect|done].
  - unfold removeOptionWithValue. run_method.
    destruct (findOptionWithValue v w); [apply Hremove|done].
Qed.

(** A synchronised widget whose options have distinct values has one row for
    each selected option and one selected option for each row. *)
Lemma inSync_rowsMatchSelection w :
  inSync w → uniqueValues w → rowsMatchSelection w = true.
Proof.
  intros (_ & _ & Hperm) Hnd. unfold rowsMatchSelection.
  assert (NoDup (rowValue <$> optionList w)) as Hrows.
  { rewrite Hperm. eapply sublist_NoDup; [exact Hnd|].
    apply fmap_sublist, sublist_filter. }
  apply andb_true_iff. split; apply forallb_forall.
  - intros row Hrow%list_elem_of_In. apply Nat.eqb_eq.
    assert (rowValue row ∈ getValue <$> filter (λ o, isSelected o) (options w))
      as (o & Hv & [Hsel Ho]%list_elem_of_filter)%list_elem_of_fmap.
    { rewrite <-Hperm. apply list_elem_of_fmap. eauto. }
    unfold selectedOf. rewrite Hv.
    by apply (filter_unique_key getValue (λ o, isSelected o)).
  - intros o Ho%list_elem_of_In. destruct (isSelected o) eqn:Hsel; [|done]. simpl.
    apply Nat.eqb_eq.
    assert (getValue o ∈ rowValue <$> optionList w)
      as (row & Hv & Hrow)%list_elem_of_fmap.
    { rewrite Hperm. apply list_elem_of_fmap. exists o. split; [done|].
      apply list_elem_of_filter. split; [by apply Is_true_true|done]. }
    unfold rowsOf. rewrite Hv.
    rewrite <-(filter_unique_key rowValue (λ _, True) (optionList w) row) by done.
    f_equal. apply list_filter_iff. naive_solver.
Qed.

(** Without colliding ids, the rows match the selected options after every
    operation of the public interface, whether it returns or throws. *)
Lemma rowsMatchSelection_preserved op w :
  inSync w → distinctIDs w →
  inSync (stateOf (perform op w)) ∧
  rowsMatchSelection (stateOf (perform op w)) = true.
Proof.
  intros Hsync Hdist.
  pose proof (perform_inSync op w Hsync Hdist) as Hsync'.
  split; [done|]. apply inSync_rowsMatchSelection; [done|].
  by apply perform_uniqueValues, distinctIDs_uniqueValues.
Qed.

(** Selecting in a synchronised widget without colliding ids: an option
    that has a row is left alone; an option without a row is marked selected
    and its row is put last, right before the input row. *)
Lemma selectOption_inSync_state i o w :
  inSync w → distinctIDs w → options w !! i = Some o →
  selectOption i w =
    Normal tt
      (if decide (rowsOf o w = []) then
         setOptionList
           (λ rows, rows ++ [mkRow (makeOptionID o w) (getHTML o) (getValue o)])
           (setOptions (alter (setSelected true) i) w)
       else w).
Proof.
  intros Hsync Hdist Hi. rewrite (selectOption_state i o) by done.
  pose proof (queryByID_option o w Hsync Hdist (list_elem_of_lookup_2 _ _ _ Hi)) as Hq.
  destruct (queryByID _ _) as [[| | |j| |]|]; try done.
  - destruct Hq as (_ & row & Hj & Hv). rewrite decide_False; [done|].
    unfold rowsOf. intros Hnone.
    eapply (filter_nil_not_elem_of _ _ row); [exact Hnone|done|].
    by eapply list_elem_of_lookup_2.
  - rewrite decide_True; [done|]. apply filter_none, Forall_forall.
    intros row Hrow Hv. destruct Hsync as (_ & _ & Hperm).
    assert (rowValue row ∈ getValue <$> filter (λ o, isSelected o) (options w))
      as (o' & Hv' & [Hsel Ho']%list_elem_of_filter)%list_elem_of_fmap.
    { rewrite <-Hperm. apply list_elem_of_fmap. eauto. }
    assert (o' = o) as ->.
    { apply (distinctIDs_inj w); [done|done|by eapply list_elem_of_lookup_2|].
      apply makeOptionID_value. congruence. }
    rewrite Hq in Hsel. done.
Qed.

(** ** The display the constructor builds *)

Lemma forEach_seq (P : nat → MultipleSelect → Prop) (body : nat → Method unit)
    (start n : nat) (w : MultipleSelect) :
  (∀ k w, start ≤ k < start + n → P k w →
          ∃ w', body k w = Normal tt w' ∧ P (S k) w') →
  P start w →
  ∃ w', forEach (seq start n) body w = Normal tt w' ∧ P (start + n) w'.
Proof.
  revert start w. induction n as [|n IH]; intros start w Hbody Hw; simpl.
  - exists w. by rewrite Nat.add_0_r.
  - destruct (Hbody start w) as (w1 & E & Hw1); [lia|done|].
    unfold bind. rewrite E.
    destruct (IH (S start) w1) as (w2 & E2 & Hw2); [|done|].
    + intros k w' Hk. apply Hbody. lia.
    + exists w2. split; [done|]. by replace (start + S n) with (S start + n) by lia.
Qed.



(** ** Colliding ids *)

(** C2, at the failing input.  From the fresh control [ms], after
    [addOption('a b')], [addOption('a-b')] and [selectOptionWithValue('a b')]
    the rows match the selection.  [deselectOptionWithValue('a-b')] then
    returns, and removes the row of [a b], whose id [ms-option-a-b] is also
    the id made for [a-b]: the option [a b] stays selected and has no row. *)
Theorem deselectOption_removes_row_of_other_option :
  rowsMatchSelection dashed = true ∧
  deselectOptionWithValue "a-b" dashed =
    Normal tt (setOptionList (λ _, []) dashed) ∧
  options (setOptionList (λ _, []) dashed)
    = [mkOption "a b" "A B" true; mkOption "a-b" "A-B" false] ∧
  optionList (setOptionList (λ _, []) dashed) = [] ∧
  rowsMatchSelection (setOptionList (λ _, []) dashed) = false.
Proof. done. Qed.

(** ** Events *)

Lemma selectOption_fired i w : fired (stateOf (selectOption i w)) = fired w.
Proof.
  unfold selectOption. run_method.
  destruct (options w !! i); [|done]. simpl. by destruct (queryByID _ _).
Qed.

Lemma deselectOption_fired i w : fired (stateOf (deselectOption i w)) = fired w.
Proof.
  unfold deselectOption. run_method.
  destruct (options w !! i); [|done]. simpl.
  destruct (queryByID _ _); [|done]. simpl. by rewrite removeFromDOM_fired.
Qed.

(** C7, as the code has it.  [addOption], [selectOption] and
    [deselectOption], and the value-keyed forms of the last two, dispatch
    no event at all: the events dispatched so far are the same after the call
    as before it, whether the call returns or throws. *)
Theorem methods_dispatch_no_event (value display : string) (i : nat) (w : MultipleSelect) :
  fired (stateOf (addOption value display w)) = fired w ∧
  fired (stateOf (selectOption i w)) = fired w ∧
  fired (stateOf (selectOptionWithValue value w)) = fired w ∧
  fired (stateOf (deselectOption i w)) = fired w ∧
  fired (stateOf (deselectOptionWithValue value w)) = fired w.
Proof.
  split_and!.
  - rewrite addOption_state. by destruct (containsOptionWithValue _ _).
  - apply selectOption_fired.
  - unfold selectOptionWithValue. run_method.
    destruct (findOptionWithValue value w); [apply selectOption_fired|done].
  - apply deselectOption_fired.
  - unfold deselectOptionWithValue. run_method.
    destruct (findOptionWithValue value w); [apply deselectOption_fired|done].
Qed.

(** C7, as stated, fails on the code: on the widget of the tests,
    [addOption('four', 'Four')] returns and adds the option, and no
    [AddOptionEvent] carrying [four] has been dispatched. *)
Lemma addOption_dispatches_no_AddOptionEvent :
  containsOptionWithValue "four" fixture = false ∧
  returns (addOption "four" "Four" fixture) = true ∧
  containsOptionWithValue "four" (stateOf (addOption "four" "Four" fixture)) = true ∧
  fired (stateOf (addOption "four" "Four" fixture)) = [] ∧
  AddOptionEvent "four" ∉ fired (stateOf (addOption "four" "Four" fixture)).
Proof. split_and!; [done..|]. apply not_elem_of_nil. Qed.

(** ** The custom-add row of the Searcher *)


Section searcher.
Import Searcher.
Implicit Types (o : Options) (w : MultipleSelect) (text : string).




Lemma prefix_refl (s : string) : String.prefix s s = true.
Proof. induction s as [|a s IH]; [done|]. simpl. by destruct (ascii_dec a a). Qed.

Lemma includes_refl (s : string) : JS.includes s s = true.
Proof. destruct s; simpl; [done|]. rewrite prefix_refl. by destruct (ascii_dec _ _). Qed.

(** *** A trimmed string lies inside the string it was trimmed from *)












(** The model at the queries of the test [search]: [t], [tw], [two], [twos],
    the empty query and the blank one on the widget of the tests, then the
    empty query once [two] is selected too.  At [two] the rule of step 4
    shows the custom-add row, because [two] and the one result [Two] differ
    in their first letter; the test asserts that the row is hidden there.
    At every other query the model and the test agree. *)
Example search_test :
  let o := mkOptions true false None in
  search o fixture "t" = mkSearchState "t" ["Two"] true ∧
  search o fixture "tw" = mkSearchState "tw" ["Two"] true ∧
  search o fixture "two" = mkSearchState "two" ["Two"] true ∧
  search o fixture "twos" = mkSearchState "twos" [] true ∧
  search o fixture "" = mkSearchState "" ["Two"] false ∧
  search o fixture "   " = mkSearchState "" [] false ∧
  search o (stateOf (selectOptionWithValue "two" fixture)) ""
    = mkSearchState "" [] false.
Proof. done. Qed.






End searcher.

(** ** Values that make ids of their own *)

Lemma makeOptionID_plain o w :
  JS.includes (getValue o) " " = false →
  makeOptionID o w = elementID w +:+ "-option-" +:+ getValue o.
Proof. intros H. by apply (generated_ids o w). Qed.

Lemma plain_distinctIDs w : uniqueValues w → plainValues w → distinctIDs w.
Proof.
  unfold uniqueValues, plainValues. intros Hnd Hplain. split.
  - assert ((λ o, makeOptionID o w) <$> options w
            = (λ v, elementID w +:+ "-option-" +:+ v) <$> (getValue <$> options w)) as ->.
    { rewrite <-list_fmap_compose. apply Forall_fmap_ext_1.
      eapply Forall_impl; [exact Hplain|]. intros o [Ho _]. simpl.
      by apply makeOptionID_plain. }
    apply NoDup_fmap_2; [|done].
    intros a b E. apply (inj (String.append _)) in E. by apply (inj (String.append _)) in E.
  - intros o Ho. rewrite Forall_forall in Hplain. destruct (Hplain o Ho) as [Hsp Hlist].
    rewrite makeOptionID_plain by done. unfold optionListID. intros E.
    apply (inj (String.append _)) in E.
    by apply (inj (String.append "-option-") (getValue o) "list") in E.
Qed.

Lemma perform_plainValues op w :
  plainOperation op → plainValues w → plainValues (stateOf (perform op w)).
Proof.
  unfold plainValues. intros Hop Hw.
  assert (∀ w', getValue <$> options w' ⊆ getValue <$> options w ∨
                (∃ v d, op = AddOptionOp v d ∧
                        options w' = options w ++ [mkOption v d false]) →
                Forall (λ o, plainValue (getValue o)) (options w')) as Hsub.
  { intros w' [Hsub|(v & d & -> & ->)].
    - apply Forall_forall. intros o Ho.
      assert (getValue o ∈ getValue <$> options w) as (o' & -> & Ho')%list_elem_of_fmap.
      { apply Hsub, list_elem_of_fmap. eauto. }
      rewrite Forall_forall in Hw. by apply Hw.
    - apply Forall_app. split; [done|]. by apply Forall_singleton. }
  assert (∀ i, Forall (λ o, plainValue (getValue o)) (options (stateOf (selectOption i w))))
    as Hselect.
  { intros i. apply Hsub. left. destruct (options w !! i) as [o|] eqn:Hi;
      [|unfold selectOption; run_method; by rewrite Hi].
    destruct (selectOption_options _ _ _ Hi) as (w' & -> & [Hw'|Hw']); simpl;
      rewrite Hw', ?alter_setSelected_values; done. }
  assert (∀ i, Forall (λ o, plainValue (getValue o)) (options (stateOf (deselectOption i w))))
    as Hdeselect.
  { intros i. apply Hsub. left. destruct (options w !! i) as [o|] eqn:Hi;
      [|unfold deselectOption; run_method; by rewrite Hi].
    destruct (deselectOption_options _ _ _ Hi) as (w' & -> & Hw'); simpl.
    by rewrite Hw', alter_setSelected_values. }
  assert (∀ i, Forall (λ o, plainValue (getValue o)) (options (stateOf (removeOption i w))))
    as Hremove.
  { intros i. apply Hsub. left. destruct (options w !! i) as [o|] eqn:Hi;
      [|unfold removeOption; run_method; by rewrite Hi].
    destruct (removeOption_options _ _ _ Hi) as (w' & -> & Hw'); simpl.
    rewrite Hw', list_fmap_delete. apply list_subseteq_delete. }
  destruct op as [v d|i|v|i|v|i|v]; simpl; try done.
  - rewrite addOption_state. destruct (containsOptionWithValue v w); [done|].
    apply Hsub. right. by exists v, d.
  - unfold selectOptionWithValue. run_method.
    destruct (findOptionWithValue v w); [apply Hselect|done].
  - unfold deselectOptionWithValue. run_method.
    destruct (findOptionWithValue v w); [apply Hdeselect|done].
  - unfold removeOptionWithValue. run_method.
    destruct (findOptionWithValue v w); [apply Hremove|done].
Qed.




(** The widget of the tests is synchronised and has no colliding ids. *)
Lemma fixture_inSync : inSync fixture.
Proof.
  split_and!; [reflexivity| |reflexivity].
  intros row Hrow. apply list_elem_of_In in Hrow. simpl in Hrow.
  destruct Hrow as [<-|[<-|[]]]; reflexivity.
Qed.

Lemma fixture_distinctIDs : distinctIDs fixture.
Proof.
  apply plain_distinctIDs.
  - refine (bool_decide_unpack _ _). vm_compute. exact I.
  - repeat (apply Forall_cons; split; [split; [reflexivity|discriminate]|]).
    apply Forall_nil_2.
Qed.

(** ** The rows the constructor renders *)

Lemma rebuildDisplay_rows w :
  optionListAttached w = true → distinctIDs w →
  ∃ w', rebuildDisplay w = Normal tt w' ∧
        options w' = options w ∧ elementID w' = elementID w ∧
        optionList w' = rowFor w <$> filter (λ o, isSelected o) (options w) ∧
        searchDisplayed w' = searchDisplayed w ∧ inputOptionHidden w' = true ∧
        inputValue w' = "".
Proof.
  intros Hatt [Hnd Hlist]. unfold rebuildDisplay. run_method.
  set (w0 := setSearch _ _ _ _).
  edestruct (forEach_seq
    (λ k w1, elementID w1 = elementID w ∧ options w1 = options w ∧
             optionListAttached w1 = true ∧
             optionList w1 = rowFor w <$> filter (λ o, isSelected o) (take k (options w)) ∧
             searchDisplayed w1 = searchDisplayed w ∧ inputOptionHidden w1 = true ∧
             inputValue w1 = "")
    (λ i, bind (gets (λ w, options w !! i))
            (λ option, match option with
                       | Some o => if isSelected o then selectOption i else ret tt
                       | None => ret tt
                       end))
    0 (length (options w)) w0)
    as (w' & E & Hid & Hopts & Hatt' & Hrows & Hsd & Hhid & Hval).
  - intros k w1 [_ Hk] (Hid & Hopts & Hatt1 & Hrows & Hsd & Hhid & Hval). run_method.
    destruct (lookup_lt_is_Some_2 (options w) k) as [o Ho]; [simpl in Hk; lia|].
    rewrite Hopts, Ho.
    assert (take (S k) (options w) = take k (options w) ++ [o]) as Htake
      by by apply take_S_r.
    destruct (isSelected o) eqn:Hsel.
    + rewrite (selectOption_state k o) by by rewrite Hopts.
      assert (queryByID (makeOptionID o w1) w1 = None) as ->.
      { rewrite queryByID_generated, Hatt1.
        rewrite (makeOptionID_elementID o w w1) by done.
        assert (optionListID w1 = optionListID w) as ->
          by (unfold optionListID; by rewrite Hid).
        destruct (String.eqb_spec (makeOptionID o w) (optionListID w)) as [Heq|_].
        { exfalso. eapply Hlist; [|done]. by eapply list_elem_of_lookup_2. }
        destruct (list_find _ _) as [[j row]|] eqn:Hfind; [|done]. exfalso.
        apply list_find_Some in Hfind as (Hj & Hrow & _).
        apply list_elem_of_lookup_2 in Hj. rewrite Hrows in Hj.
        apply list_elem_of_fmap in Hj as (o' & -> & [_ Ho']%list_elem_of_filter).
        apply list_elem_of_lookup in Ho' as (j' & Hj').
        apply lookup_take_Some in Hj' as [Hj' Hlt].
        assert (j' = k); [|lia].
        eapply NoDup_lookup; [exact Hnd|..]; rewrite list_lookup_fmap.
        - rewrite Hj'. simpl. reflexivity.
        - rewrite Ho. simpl. f_equal. done. }
      eexists. split; [done|]. simpl. split_and!; try done.
      * by rewrite Hopts, (alter_select_selected _ _ o).
      * rewrite Hrows, Htake, filter_app, fmap_app, filter_cons.
        rewrite decide_True by by rewrite Hsel. simpl. do 2 f_equal.
        unfold rowFor. f_equal. by apply makeOptionID_elementID.
    + exists w1. split; [done|]. split_and!; try done.
      rewrite Hrows, Htake, filter_app, filter_cons.
      rewrite decide_False by (rewrite Hsel; naive_solver).
      by rewrite filter_nil, app_nil_r.
  - simpl. by split_and!.
  - exists w'. split; [done|]. split_and!; try done.
    simpl in Hrows. by rewrite firstn_all in Hrows.
Qed.

(** X2.  On such a control and such a page (no display container for the
    control, or one together with its list) the constructor completes and
    leaves the counter as it is.  The widget shows one row per selected
    option, in the control's order, with the id [<id>-option-<value>] and
    the option's text; rows that an earlier widget left in the list are
    gone, the search is closed and the input row is hidden. *)
Theorem construct_renders_selected_options
    (id : string) (os : list OptionElement)
    (display : option (option (list Row))) (count : nat) :
  display ≠ Some None →
  NoDup (getValue <$> os) →
  Forall (λ o, plainValue (getValue o)) os →
  ∃ w, construct (selectElement id os) display count = Constructed w count ∧
       elementID w = id ∧ options w = os ∧
       optionList w =
         (λ o, mkRow (id +:+ "-option-" +:+ getValue o) (getHTML o) (getValue o))
           <$> filter (λ o, isSelected o) os ∧
       searchDisplayed w = false ∧ inputOptionHidden w = true.
Proof.
  intros Hlist Hnd Hplain. unfold construct. simpl.
  assert (∃ rows,
            match display with None => Some [] | Some found => found end
            = Some rows) as [rows ->].
  { destruct display as [[rows|]|]; [by exists rows|done|by exists []]. }
  destruct (rebuildDisplay_rows
              (mkMultipleSelect id os rows true false true "" []))
    as (w & -> & Hopts & Hid & Hrows & Hsd & Hhid & _); [done|by apply plain_distinctIDs|].
  exists w. split_and!; try done. rewrite Hrows. simpl.
  apply Forall_fmap_ext_1, Forall_forall. intros o [_ Ho]%list_elem_of_filter.
  rewrite Forall_forall in Hplain. destruct (Hplain o Ho) as [Hsp _].
  unfold rowFor. f_equal. by rewrite makeOptionID_plain.
Qed.

Lemma construct_renders_selected_options_witness :
  ∃ w, construct (selectElement "multiple-select"
                    [mkOption "one" "One" true; mkOption "two" "Two" false;
                     mkOption "three" "Three" true])
         (Some (Some [mkRow "stale" "Stale" "stale"])) 1 = Constructed w 1 ∧
       elementID w = "multiple-select" ∧
       options w = [mkOption "one" "One" true; mkOption "two" "Two" false;
                    mkOption "three" "Three" true] ∧
       optionList w =
         (λ o, mkRow ("multiple-select" +:+ "-option-" +:+ getValue o) (getHTML o) (getValue o))
           <$> filter (λ o, isSelected o)
                 [mkOption "one" "One" true; mkOption "two" "Two" false;
                  mkOption "three" "Three" true] ∧
       searchDisplayed w = false ∧ inputOptionHidden w = true.
Proof.
  apply construct_renders_selected_options.
  - discriminate.
  - refine (bool_decide_unpack _ _). vm_compute. exact I.
  - repeat (apply Forall_cons; split; [split; [reflexivity|discriminate]|]).
    apply Forall_nil_2.
Defined.

(** ** Generated ids of controls without an id *)

Lemma selectOption_elementID i w : elementID (stateOf (selectOption i w)) = elementID w.
Proof.
  unfold selectOption. run_method.
  destruct (options w !! i); [|done]. simpl. by destruct (queryByID _ _).
Qed.

Lemma rebuildDisplay_elementID w w' :
  rebuildDisplay w = Normal tt w' → elementID w' = elementID w.
Proof.
  unfold rebuildDisplay. run_method. intros E.
  match type of E with
  | forEach ?ixs ?body ?w0 = _ =>
      destruct (forEach_returns (λ w1, elementID w1 = elementID w) body ixs w0)
        as (w2 & E2 & Hid); [|reflexivity|rewrite E2 in E; by simplify_eq]
  end.
  intros i w1 Hw1. run_method.
  destruct (options w1 !! i) as [o|] eqn:Hi; [|by eexists].
  destruct (isSelected o); [|by eexists].
  destruct (selectOption_options _ _ _ Hi) as (w3 & E3 & _).
  exists w3. split; [done|]. rewrite <-Hw1, <-(selectOption_elementID i w1). by rewrite E3.
Qed.

Lemma construct_elementID element display count w count' :
  construct element display count = Constructed w count' →
  match getID element with
  | Some id => elementID w = id ∧ count' = count
  | None => elementID w = "prime-multiple-select" +:+ pretty count ∧ count' = S count
  end.
Proof.
  unfold construct. destruct (negb _); [done|]. destruct (negb _); [done|].
  destruct (match display with None => Some [] | Some found => found end)
    as [rows|]; [|by destruct (getID element)].
  destruct (getID element) as [id|];
    match goal with |- context [rebuildDisplay ?w0] =>
      destruct (rebuildDisplay w0) as [[] w1|] eqn:E end; intros; simplify_eq;
    by apply rebuildDisplay_elementID in E.
Qed.

(** X3.  Two controls without an id never get the same generated id.  Each
    construction takes the counter's value for the id and hands on the next
    value, so with the counter threaded from the first construction to the
    second, through any number of others, the two ids differ. *)
Theorem generated_ids_never_repeat
    (e1 e2 : Element) (d1 d2 : option (option (list Row))) (c c' c1 c2 : nat)
    (w1 w2 : MultipleSelect) :
  getID e1 = None → getID e2 = None →
  construct e1 d1 c = Constructed w1 c1 →
  construct e2 d2 c' = Constructed w2 c2 →
  c1 ≤ c' →
  c1 = S c ∧ c2 = S c' ∧ elementID w1 ≠ elementID w2.
Proof.
  intros H1 H2 E1%construct_elementID E2%construct_elementID Hle.
  rewrite H1 in E1. rewrite H2 in E2. destruct E1 as [-> ->], E2 as [-> ->].
  split_and!; [done..|]. intros E. apply (inj (String.append _)) in E.
  apply (inj pretty) in E. lia.
Qed.

Lemma generated_ids_never_repeat_witness :
  1 = S 0 ∧ 2 = S 1 ∧
  elementID (mkMultipleSelect "prime-multiple-select0" [] [] true false true "" [])
  ≠ elementID (mkMultipleSelect "prime-multiple-select1" [] [] true false true "" []).
Proof.
  apply (generated_ids_never_repeat
           (mkElement "SELECT" None (Some "multiple") [])
           (mkElement "SELECT" None (Some "multiple") []) None None 0 1 1 2).
  - reflexivity.
  - reflexivity.
  - reflexivity.
  - reflexivity.
  - lia.
Defined.

(** ** Selecting and deselecting in turn *)

Lemma alter_deselect_select (os : list OptionElement) i o :
  os !! i = Some o → isSelected o = false →
  alter (setSelected false) i (alter (setSelected true) i os) = os.
Proof.
  intros Hi Hsel. apply list_eq. intros j. destruct (decide (i = j)) as [->|Hne].
  - rewrite !list_lookup_alter_eq, Hi. destruct o. simpl in *. by subst.
  - by rewrite !list_lookup_alter_ne.
Qed.

Lemma alter_select_deselect (os : list OptionElement) i o :
  os !! i = Some o → isSelected o = true →
  alter (setSelected true) i (alter (setSelected false) i os) = os.
Proof.
  intros Hi Hsel. apply list_eq. intros j. destruct (decide (i = j)) as [->|Hne].
  - rewrite !list_lookup_alter_eq, Hi. destruct o. simpl in *. by subst.
  - by rewrite !list_lookup_alter_ne.
Qed.

Lemma setOptions_setOptionList_id w os rows :
  os = options w → rows = optionList w →
  setOptionList (λ _, rows) (setOptions (λ _, os) w) = w.
Proof. intros -> ->. by destruct w. Qed.

(** X4.  In a synchronised widget without colliding ids, selecting an
    unselected option appends its row as the last row, and deselecting the
    option then gives back the state from before, exactly. *)
Theorem select_then_deselect_restores i o w :
  inSync w → distinctIDs w →
  options w !! i = Some o → isSelected o = false →
  ∃ w1, selectOption i w = Normal tt w1 ∧
        optionList w1 = optionList w ++ [rowFor w o] ∧
        deselectOption i w1 = Normal tt w.
Proof.
  intros Hsync Hdist Hi Hsel.
  pose proof (queryByID_option o w Hsync Hdist (list_elem_of_lookup_2 _ _ _ Hi)) as Hq.
  rewrite (selectOption_state i o) by done.
  destruct (queryByID (makeOptionID o w) w) as [[| | |j| |]|] eqn:Hlook; try done;
    [destruct Hq; congruence|].
  eexists. split; [done|]. split; [done|].
  rewrite (deselectOption_state i (setSelected true o))
    by (simpl; by rewrite list_lookup_alter_eq, Hi).
  assert (queryByID (makeOptionID o w) w = None) as Hnone by done.
  rewrite queryByID_generated in Hnone.
  rewrite queryByID_generated. simpl.
  destruct Hsync as (Hatt & _ & _). rewrite Hatt in Hnone |- *.
  change (makeOptionID (setSelected true o) _) with (makeOptionID o w).
  change (optionListID _) with (optionListID w).
  destruct (String.eqb _ (optionListID w)); [done|].
  destruct (list_find _ (optionList w)) as [[]|] eqn:Hfind; [done|].
  rewrite (list_find_app_r _ _ _ Hfind). simpl.
  rewrite decide_True by done. simpl. f_equal.
  unfold removeFromDOM, setOptionList, setOptions. simpl.
  rewrite (alter_deselect_select _ _ o) by done.
  replace (delete (0 + length (optionList w)) _) with (optionList w).
  - by destruct w.
  - rewrite delete_take_drop. simpl.
    rewrite take_app_length, drop_ge by (rewrite length_app; simpl; lia).
    by rewrite app_nil_r.
Qed.

Lemma select_then_deselect_restores_witness :
  ∃ w1, selectOption 1 fixture = Normal tt w1 ∧
        optionList w1 = optionList fixture ++ [rowFor fixture (mkOption "two" "Two" false)] ∧
        deselectOption 1 w1 = Normal tt fixture.
Proof.
  apply select_then_deselect_restores.
  - exact fixture_inSync.
  - exact fixture_distinctIDs.
  - reflexivity.
  - reflexivity.
Defined.

Lemma inSync_rowValues_NoDup w :
  inSync w → distinctIDs w → NoDup (rowValue <$> optionList w).
Proof.
  intros (_ & _ & Hperm) Hdist%distinctIDs_uniqueValues. rewrite Hperm.
  eapply sublist_NoDup; [exact Hdist|]. apply fmap_sublist, sublist_filter.
Qed.

(** The row of a selected option, under the invariant: its position is the
    one the lookup of the option's id finds. *)
Lemma queryByID_row_of_option j row i o w :
  inSync w → distinctIDs w →
  optionList w !! j = Some row → options w !! i = Some o →
  getValue o = rowValue row →
  queryByID (makeOptionID o w) w = Some (RowNode j) ∧ isSelected o = true.
Proof.
  intros Hsync Hdist Hj Hi Hv.
  pose proof (queryByID_option o w Hsync Hdist (list_elem_of_lookup_2 _ _ _ Hi)) as Hq.
  pose proof (inSync_rowValues_NoDup w Hsync Hdist) as Hnd.
  destruct (queryByID _ _) as [[| | |j'| |]|]; try done.
  - destruct Hq as (Hsel & row' & Hj' & Hv'). split; [|done]. do 2 f_equal.
    eapply NoDup_lookup; [exact Hnd|..]; rewrite list_lookup_fmap.
    + by rewrite Hj'.
    + rewrite Hj. simpl. congruence.
  - exfalso. destruct Hsync as (_ & _ & Hperm).
    assert (rowValue row ∈ getValue <$> filter (λ o, isSelected o) (options w))
      as (o' & Hv' & [Hsel' Ho']%list_elem_of_filter)%list_elem_of_fmap.
    { rewrite <-Hperm. apply list_elem_of_fmap. exists row. split; [done|].
      by eapply list_elem_of_lookup_2. }
    assert (o' = o) as ->.
    { apply (distinctIDs_inj w); [done|done|by eapply list_elem_of_lookup_2|].
      apply makeOptionID_value. congruence. }
    rewrite Hq in Hsel'. done.
Qed.

(** X5.  In a synchronised widget without colliding ids, deselecting a
    selected option and selecting it again leaves the options as they were
    and moves the option's row to the end of the rows. *)
Theorem deselect_then_select_moves_row_last i o j row w :
  inSync w → distinctIDs w →
  options w !! i = Some o → optionList w !! j = Some row →
  getValue o = rowValue row →
  ∃ w1 w2, deselectOption i w = Normal tt w1 ∧ selectOption i w1 = Normal tt w2 ∧
           options w2 = options w ∧
           optionList w2 = delete j (optionList w) ++ [rowFor w o].
Proof.
  intros Hsync Hdist Hi Hj Hv.
  destruct (queryByID_row_of_option j row i o w) as [Hq Hsel]; try done.
  pose proof (deselectOption_inSync i w Hsync Hdist) as Hsync1.
  assert (distinctIDs (stateOf (deselectOption i w))) as Hdist1.
  { destruct Hdist as [Hnd Hlist].
    rewrite (deselectOption_state i o) by done. rewrite Hq. simpl.
    split; simpl.
    - assert (((λ o0, makeOptionID o0 (setOptionList (delete j)
                  (setOptions (alter (setSelected false) i) w)))
               <$> alter (setSelected false) i (options w))
              = (λ o0, makeOptionID o0 w) <$> options w) as ->; [|done].
      rewrite (list_fmap_alter _ _ id).
      + by rewrite list_alter_id.
      + by apply Forall_true.
    - intros o' (k & Hk)%list_elem_of_lookup. rewrite list_lookup_alter in Hk.
      case_decide; subst.
      + rewrite Hi in Hk. simplify_eq/=.
        apply (Hlist o). by eapply list_elem_of_lookup_2.
      + apply (Hlist o'). by eapply list_elem_of_lookup_2. }
  revert Hsync1 Hdist1. rewrite (deselectOption_state i o) by done. rewrite Hq. simpl.
  set (w1 := setOptionList _ _). intros Hsync1 Hdist1.
  exists w1. eexists. split; [done|].
  assert (options w1 !! i = Some (setSelected false o)) as Hi1.
  { simpl. by rewrite list_lookup_alter_eq, Hi. }
  pose proof (queryByID_option _ w1 Hsync1 Hdist1 (list_elem_of_lookup_2 _ _ _ Hi1)) as Hq1.
  rewrite (selectOption_state i _ _ Hi1).
  destruct (queryByID _ w1) as [[| | |j'| |]|]; try done; [by destruct Hq1|].
  split; [done|]. simpl. split.
  - by apply (alter_select_deselect _ _ o).
  - done.
Qed.

Lemma deselect_then_select_moves_row_last_witness :
  ∃ w1 w2, deselectOption 0 fixture = Normal tt w1 ∧ selectOption 0 w1 = Normal tt w2 ∧
           options w2 = options fixture ∧
           optionList w2 = delete 0 (optionList fixture)
                           ++ [rowFor fixture (mkOption "one" "One" true)].
Proof.
  apply (deselect_then_select_moves_row_last 0 (mkOption "one" "One" true) 0
           (mkRow "multiple-select-option-one" "One" "one")).
  - exact fixture_inSync.
  - exact fixture_distinctIDs.
  - reflexivity.
  - reflexivity.
  - reflexivity.
Defined.

(** ** A click on the remove link of a row *)

(** X6.  In a synchronised widget without colliding ids, a click on the
    remove link of a row finds a selected option with the row's value,
    deselects it and removes that row and no other; the listener returns
    [false]. *)
Theorem clickRow_removes_its_row j row w :
  inSync w → distinctIDs w →
  optionList w !! j = Some row →
  ∃ i o, options w !! i = Some o ∧ getValue o = rowValue row ∧ isSelected o = true ∧
         clickRow j w =
           Normal false
             (setOptionList (delete j)
                (setOptions (alter (setSelected false) i) w)).
Proof.
  intros Hsync Hdist Hj.
  assert (rowValue row ∈ getValue <$> filter (λ o, isSelected o) (options w))
    as (o & Hv & [Hsel Ho]%list_elem_of_filter)%list_elem_of_fmap.
  { destruct Hsync as (_ & _ & <-). apply list_elem_of_fmap. exists row.
    split; [done|]. by eapply list_elem_of_lookup_2. }
  destruct (findOptionWithValue (rowValue row) w) as [i|] eqn:Hfind.
  2:{ apply containsOptionWithValue_find, containsOptionWithValue_false in Hfind.
      exfalso. apply Hfind. apply list_elem_of_fmap. eauto. }
  destruct (findOptionWithValue_Some _ _ _ Hfind) as (o' & Hi & Hv').
  destruct (queryByID_row_of_option j row i o' w) as [Hq Hsel']; try done.
  exists i, o'. split_and!; [done..|].
  unfold clickRow, deselectOptionWithValue. run_method. rewrite Hj. simpl.
  rewrite Hfind. rewrite (deselectOption_state i o') by done. by rewrite Hq.
Qed.

Lemma clickRow_removes_its_row_witness :
  ∃ i o, options fixture !! i = Some o ∧ getValue o = "three" ∧ isSelected o = true ∧
         clickRow 1 fixture =
           Normal false
             (setOptionList (delete 1)
                (setOptions (alter (setSelected false) i) fixture)).
Proof.
  apply (clickRow_removes_its_row 1 (mkRow "multiple-select-option-three" "Three" "three")).
  - exact fixture_inSync.
  - exact fixture_distinctIDs.
  - reflexivity.
Defined.

(** ** Removing every option, rows included *)

Lemma distinctIDs_sublist w w' :
  distinctIDs w → elementID w' = elementID w →
  options w' `sublist_of` options w → distinctIDs w'.
Proof.
  intros [Hnd Hlist] Hid Hsub. split.
  - assert ((λ o, makeOptionID o w') <$> options w'
            = (λ o, makeOptionID o w) <$> options w') as ->.
    { apply Forall_fmap_ext_1, Forall_true. intros o. by apply makeOptionID_elementID. }
    eapply sublist_NoDup; [exact Hnd|]. by apply fmap_sublist.
  - intros o Ho. rewrite (makeOptionID_elementID o w w') by done.
    unfold optionListID. rewrite Hid. apply Hlist.
    eapply elem_of_submseteq; [exact Ho|]. by apply sublist_submseteq.
Qed.

Lemma removeOption_distinctIDs i w :
  distinctIDs w → distinctIDs (stateOf (removeOption i w)).
Proof.
  intros Hdist.
  destruct (options w !! i) as [o|] eqn:Hi;
    [|unfold removeOption; run_method; by rewrite Hi].
  destruct (removeOption_options _ _ _ Hi) as (w' & E & Hopts).
  pose proof (removeOption_state i o w Hi) as E'. rewrite E in E' |- *. simpl.
  apply (distinctIDs_sublist w); [done| |rewrite Hopts; apply sublist_delete].
  simplify_eq. destruct (queryByID _ _) as [[]|]; done.
Qed.

(** X7.  In a synchronised widget without colliding ids [removeAllOptions]
    removes every option and with it every row, and the list of rows stays
    in the document. *)
Theorem removeAllOptions_removes_rows w :
  inSync w → distinctIDs w →
  ∃ w', removeAllOptions w = Normal tt w' ∧
        options w' = [] ∧ optionList w' = [] ∧ optionListAttached w' = true.
Proof.
  intros Hsync Hdist. unfold removeAllOptions. run_method.
  assert (∀ n w1, length (options w1) = n → inSync w1 → distinctIDs w1 →
            ∃ w', forEach (reverse (seq 0 n)) removeOption w1 = Normal tt w' ∧
                  options w' = [] ∧ inSync w') as Hloop.
  { induction n as [|n IH]; intros w1 Hn Hs Hd.
    - exists w1. split_and!; [done| |done]. by apply nil_length_inv.
    - rewrite seq_S, reverse_app. simpl. unfold bind.
      destruct (lookup_lt_is_Some_2 (options w1) n) as [o Ho]; [lia|].
      pose proof (removeOption_inSync n w1 Hs Hd) as Hs'.
      pose proof (removeOption_distinctIDs n w1 Hd) as Hd'.
      destruct (removeOption_options _ _ _ Ho) as (w2 & E & Hopts).
      rewrite E in Hs', Hd' |- *. simpl in *.
      apply IH; [|done..]. rewrite Hopts, length_delete; [lia|done]. }
  destruct (Hloop _ w eq_refl Hsync Hdist) as (w' & E & Hopts & (Hatt & _ & Hperm)).
  exists w'. split_and!; [done..| |done].
  rewrite Hopts in Hperm. simpl in Hperm. apply Permutation_nil_r in Hperm.
  by apply fmap_nil_inv in Hperm.
Qed.

Lemma removeAllOptions_removes_rows_witness :
  ∃ w', removeAllOptions fixture = Normal tt w' ∧
        options w' = [] ∧ optionList w' = [] ∧ optionListAttached w' = true.
Proof.
  apply removeAllOptions_removes_rows.
  - exact fixture_inSync.
  - exact fixture_distinctIDs.
Defined.

(** ** Adding an option *)

Lemma findOptionWithValue_app_absent value w o :
  findOptionWithValue value w = None →
  findOptionWithValue value (setOptions (λ os, os ++ [o]) w) =
    if decide (getValue o = value) then Some (length (options w)) else None.
Proof.
  unfold findOptionWithValue. destruct (list_find _ (options w)) as [[]|] eqn:E; [done|].
  intros _. simpl. rewrite (list_find_app_r _ _ _ E). simpl.
  case_decide; simpl; done.
Qed.

(** X8.  [addOption] never throws and never touches the rows.  When the
    value is present it changes nothing; otherwise it appends one option at
    the end of the control, unselected and with the value, where
    [findOptionWithValue] then finds it; its text as [getHTML] reads it is
    the display text that was passed when that is plain text, without
    markup and character references.  Afterwards the value is present, and
    what [findOptionWithValue] answers for any other value is as before. *)
Theorem addOption_lookup value display w :
  ∃ w', addOption value display w = Normal tt w' ∧
        optionList w' = optionList w ∧
        (containsOptionWithValue value w = true → w' = w) ∧
        (containsOptionWithValue value w = false →
           ∃ o, options w' = options w ++ [o] ∧
                getValue o = value ∧ isSelected o = false ∧
                (plainText display = true → getHTML o = display) ∧
                findOptionWithValue value w' = Some (length (options w))) ∧
        containsOptionWithValue value w' = true ∧
        ∀ other, other ≠ value →
                 findOptionWithValue other w' = findOptionWithValue other w.
Proof.
  unfold addOption. run_method.
  destruct (containsOptionWithValue value w) eqn:Hc.
  - exists w. by split_and!.
  - eexists. split; [done|]. simpl.
    apply containsOptionWithValue_find in Hc.
    pose proof (findOptionWithValue_app_absent value w (mkOption value display false) Hc)
      as Hfind. simpl in Hfind. rewrite decide_True in Hfind by done.
    split_and!; [done|done| |by unfold containsOptionWithValue; rewrite Hfind|].
    + intros _. exists (mkOption value display false). by split_and!.
    + intros other Hne. unfold findOptionWithValue. simpl.
      destruct (list_find _ (options w)) as [[k o]|] eqn:E.
      * by rewrite (list_find_app_l _ _ _ _ _ E).
      * rewrite (list_find_app_r _ _ _ E). simpl. by rewrite decide_False.
Qed.

Lemma addOption_lookup_witness :
  ∃ w' o, addOption "four" "Four" fixture = Normal tt w' ∧
          options w' = options fixture ++ [o] ∧
          getValue o = "four" ∧ isSelected o = false ∧ getHTML o = "Four" ∧
          findOptionWithValue "four" w' = Some (length (options fixture)).
Proof.
  destruct (addOption_lookup "four" "Four" fixture) as (w' & E & _ & _ & Hnew & _).
  destruct (Hnew eq_refl) as (o & Hoptions & Hvalue & Hselected & Htext & Hfind).
  exists w', o. split_and!; [exact E|exact Hoptions|exact Hvalue|exact Hselected| |exact Hfind].
  apply Htext. reflexivity.
Defined.

(** X9.  In a synchronised widget whose values are distinct, without a space
    and other than [list], adding an absent value of that kind and removing
    it again with [removeOptionWithValue] gives back the state from before,
    exactly. *)
Theorem add_then_remove_restores value display w :
  inSync w → uniqueValues w → plainValues w →
  plainValue value → containsOptionWithValue value w = false →
  ∃ w1, addOption value display w = Normal tt w1 ∧
        containsOptionWithValue value w1 = true ∧
        removeOptionWithValue value w1 = Normal tt w.
Proof.
  intros Hsync Hu Hp Hv Hc.
  pose proof (perform_uniqueValues (AddOptionOp value display) w Hu) as Hu1.
  pose proof (perform_plainValues (AddOptionOp value display) w Hv Hp) as Hp1.
  pose proof (addOption_inSync value display w Hsync) as Hsync1.
  simpl in Hu1, Hp1. revert Hu1 Hp1 Hsync1.
  rewrite addOption_state, Hc. unfold addOption. run_method. rewrite Hc.
  set (o := mkOption value display false). set (w1 := setOptions _ w).
  intros Hu1 Hp1 Hsync1. exists w1.
  apply containsOptionWithValue_find in Hc.
  pose proof (findOptionWithValue_app_absent value w o Hc) as Hfind.
  rewrite decide_True in Hfind by done. fold w1 in Hfind.
  split_and!; [done|by unfold containsOptionWithValue; rewrite Hfind|].
  unfold removeOptionWithValue. run_method. rewrite Hfind.
  assert (options w1 !! length (options w) = Some o) as Hi.
  { simpl. by rewrite lookup_app_r, Nat.sub_diag by lia. }
  rewrite (removeOption_state _ o) by done.
  pose proof (queryByID_option o w1 Hsync1 (plain_distinctIDs _ Hu1 Hp1)
                (list_elem_of_lookup_2 _ _ _ Hi)) as Hq.
  destruct (queryByID _ _) as [[| | |j| |]|]; try done; [by destruct Hq|].
  f_equal. unfold w1, setOptions. simpl.
  rewrite delete_take_drop, take_app_length, drop_ge, app_nil_r
    by (rewrite length_app; simpl; lia).
  by destruct w.
Qed.

Lemma add_then_remove_restores_witness :
  ∃ w1, addOption "four" "Four" fixture = Normal tt w1 ∧
        containsOptionWithValue "four" w1 = true ∧
        removeOptionWithValue "four" w1 = Normal tt fixture.
Proof.
  apply add_then_remove_restores.
  - exact fixture_inSync.
  - refine (bool_decide_unpack _ _). vm_compute. exact I.
  - repeat (apply Forall_cons; split; [split; [reflexivity|discriminate]|]).
    apply Forall_nil_2.
  - split; [reflexivity|discriminate].
  - reflexivity.
Defined.

(** ** Calling a method twice *)

Lemma alter_twice (b : bool) i (os : list OptionElement) :
  alter (setSelected b) i (alter (setSelected b) i os) = alter (setSelected b) i os.
Proof.
  apply list_eq. intros j. destruct (decide (i = j)) as [->|Hne].
  - rewrite !list_lookup_alter_eq. by destruct (os !! j).
  - by rewrite !list_lookup_alter_ne.
Qed.

Lemma queryByID_generated_in o w w1 :
  elementID w1 = elementID w →
  queryByID (makeOptionID o w) w1 =
    if optionListAttached w1 then
      if String.eqb (makeOptionID o w) (optionListID w) then Some ListNode
      else (λ found, RowNode found.1)
             <$> list_find (λ row, rowID row = makeOptionID o w) (optionList w1)
    else None.
Proof.
  intros Hid. rewrite <-(makeOptionID_elementID o w w1 Hid), queryByID_generated.
  unfold optionListID. by rewrite Hid.
Qed.

Lemma list_find_delete_unique (rows : list Row) id j row :
  NoDup (rowID <$> rows) → rows !! j = Some row → rowID row = id →
  list_find (λ r, rowID r = id) (delete j rows) = None.
Proof.
  intros Hnd Hj Hid. apply list_find_None, Forall_forall.
  intros r (k & Hk)%list_elem_of_lookup Hr.
  assert (∃ k', k' ≠ j ∧ rows !! k' = Some r) as (k' & Hne & Hk').
  { destruct (decide (k < j)).
    - exists k. split; [lia|]. by rewrite list_lookup_delete_lt in Hk by lia.
    - exists (S k). split; [lia|]. by rewrite list_lookup_delete_ge in Hk by lia. }
  apply Hne. eapply NoDup_lookup; [exact Hnd|..]; rewrite list_lookup_fmap.
  - by rewrite Hk'.
  - rewrite Hj. simpl. congruence.
Qed.

(** X10.  Calling [selectOption] twice on an option is the same as calling it
    once, as long as the list of rows is in the document; calling
    [deselectOption] twice is the same as calling it once, as long as no two
    rows share an id. *)
Theorem select_and_deselect_idempotent i w :
  (optionListAttached w = true →
     selectOption i (stateOf (selectOption i w)) = selectOption i w) ∧
  (NoDup (rowID <$> optionList w) →
     deselectOption i (stateOf (deselectOption i w)) = deselectOption i w).
Proof.
  split.
  - intros Hatt. destruct (selectOption i w) as [[] w1|e w1] eqn:E; simpl.
    + by apply (selectOption_idempotent i w).
    + unfold selectOption in E |- *. run_method.
      destruct (options w !! i) as [o|] eqn:Hi; simpl in E.
      * by destruct (queryByID _ _).
      * simplify_eq. by rewrite Hi.
  - intros Hnd.
    destruct (options w !! i) as [o|] eqn:Hi;
      [|unfold deselectOption; run_method; rewrite Hi; simpl; by rewrite Hi].
    rewrite (deselectOption_state i o w Hi).
    pose proof (queryByID_makeOptionID o w) as Hkind.
    set (w0 := setOptions (alter (setSelected false) i) w).
    assert (∀ w1, options w1 = options w0 → elementID w1 = elementID w →
              queryByID (makeOptionID o w) w1 = None →
              deselectOption i w1 = Normal tt w1) as Hagain.
    { intros w1 Hopts Hid Hq.
      rewrite (deselectOption_state i (setSelected false o))
        by (rewrite Hopts; simpl; by rewrite list_lookup_alter_eq, Hi).
      assert (makeOptionID (setSelected false o) w1 = makeOptionID o w) as ->
        by (unfold makeOptionID; by rewrite Hid).
      rewrite Hq. f_equal. destruct w1. unfold setOptions. simpl in *.
      subst. by rewrite alter_twice. }
    destruct (queryByID (makeOptionID o w) w) as [[| | |j| |]|] eqn:Hq; try done; simpl.
    + apply Hagain; [done..|]. by rewrite queryByID_generated_in.
    + apply Hagain; [done..|]. rewrite queryByID_generated in Hq.
      rewrite queryByID_generated_in by done. simpl.
      destruct (optionListAttached w); [|done].
      destruct (String.eqb _ _); [done|].
      destruct (list_find _ (optionList w)) as [[j' row]|] eqn:Hfind; [|done].
      simpl in Hq. simplify_eq.
      apply list_find_Some in Hfind as (Hj & Hid & _).
      by rewrite (list_find_delete_unique _ _ _ row).
    + by apply Hagain.
Qed.

Lemma select_and_deselect_idempotent_witness :
  selectOption 1 (stateOf (selectOption 1 fixture)) = selectOption 1 fixture ∧
  deselectOption 0 (stateOf (deselectOption 0 fixture)) = deselectOption 0 fixture.
Proof.
  split.
  - apply (proj1 (select_and_deselect_idempotent 1 fixture)). reflexivity.
  - apply (proj2 (select_and_deselect_idempotent 0 fixture)).
    refine (bool_decide_unpack _ _). vm_compute. exact I.
Defined.

(** ** The search row *)

Lemma removeFromDOM_searchRow node w : searchRow (removeFromDOM node w) = searchRow w.
Proof. by destruct node. Qed.

Lemma selectOption_searchRow i w : searchRow (stateOf (selectOption i w)) = searchRow w.
Proof.
  unfold selectOption. run_method.
  destruct (options w !! i); [|done]. simpl. by destruct (queryByID _ _).
Qed.

Lemma deselectOption_searchRow i w : searchRow (stateOf (deselectOption i w)) = searchRow w.
Proof.
  unfold deselectOption. run_method.
  destruct (options w !! i); [|done]. simpl.
  destruct (queryByID _ _); [|done]. simpl. by rewrite removeFromDOM_searchRow.
Qed.

Lemma removeOption_searchRow i w : searchRow (stateOf (removeOption i w)) = searchRow w.
Proof.
  unfold removeOption. run_method.
  destruct (options w !! i); [|done]. simpl.
  destruct (queryByID _ _); [|done]. simpl. by rewrite removeFromDOM_searchRow.
Qed.

Lemma forEach_preserves {A} (f : MultipleSelect → A) (body : nat → Method unit) ixs w :
  (∀ i w, f (stateOf (body i w)) = f w) →
  f (stateOf (forEach ixs body w)) = f w.
Proof.
  intros Hbody. revert w. induction ixs as [|i ixs IH]; intros w; simpl; [done|].
  unfold bind. specialize (Hbody i w). destruct (body i w) as [[] w1|e w1]; simpl in *.
  - by rewrite IH.
  - done.
Qed.

Lemma perform_searchRow op w : searchRow (stateOf (perform op w)) = searchRow w.
Proof.
  destruct op as [v d|i|v|i|v|i|v]; simpl.
  - rewrite addOption_state. by destruct (containsOptionWithValue v w).
  - apply selectOption_searchRow.
  - unfold selectOptionWithValue. run_method.
    destruct (findOptionWithValue v w); [apply selectOption_searchRow|done].
  - apply deselectOption_searchRow.
  - unfold deselectOptionWithValue. run_method.
    destruct (findOptionWithValue v w); [apply deselectOption_searchRow|done].
  - apply removeOption_searchRow.
  - unfold removeOptionWithValue. run_method.
    destruct (findOptionWithValue v w); [apply removeOption_searchRow|done].
Qed.

Lemma clickRow_searchRow j w : searchRow (stateOf (clickRow j w)) = searchRow w.
Proof.
  unfold clickRow. run_method. destruct (optionList w !! j) as [row|]; [|done]. simpl.
  pose proof (perform_searchRow (DeselectOptionWithValueOp (rowValue row)) w) as H.
  simpl in H. by destruct (deselectOptionWithValue _ w).
Qed.

Lemma interact_shown escape x w :
  searchDisplayed w = negb (inputOptionHidden w) →
  searchDisplayed (interact escape x w) = negb (inputOptionHidden (interact escape x w)).
Proof.
  intros Hw.
  assert (∀ w', searchRow w' = searchRow w →
                searchDisplayed w' = negb (inputOptionHidden w')) as Hsame.
  { unfold searchRow. intros w' E. injection E as E1 E2 _. by rewrite E1, E2. }
  destruct x as [op| | |key|j|]; simpl.
  - apply Hsame, perform_searchRow.
  - unfold openSearch. run_method.
    destruct (searchDisplayed w) eqn:E; simpl; [by rewrite E|done].
  - unfold closeSearch. run_method.
    destruct (searchDisplayed w) eqn:E; simpl; [done|by rewrite E].
  - unfold handleKeyEvent, closeSearch. run_method.
    destruct (searchDisplayed w) eqn:E; simpl; [|by rewrite E].
    destruct (key =? escape)%nat; simpl; [by rewrite E|by rewrite E].
  - apply Hsame, clickRow_searchRow.
  - apply Hsame. unfold removeAllOptions. run_method.
    apply forEach_preserves. apply removeOption_searchRow.
Qed.

Lemma rebuildDisplay_searchRow w :
  searchRow (stateOf (rebuildDisplay w)) = (searchDisplayed w, true, "").
Proof.
  unfold rebuildDisplay. run_method.
  apply (forEach_preserves searchRow). intros i w1. run_method.
  destruct (options w1 !! i) as [o|]; [|done].
  destruct (isSelected o); [apply selectOption_searchRow|done].
Qed.

Lemma construct_shown element display count w count' :
  construct element display count = Constructed w count' →
  searchDisplayed w = false ∧ inputOptionHidden w = true.
Proof.
  unfold construct. destruct (negb _); [done|]. destruct (negb _); [done|].
  destruct (match display with None => Some [] | Some found => found end)
    as [rows|]; [|by destruct (getID element)].
  destruct (getID element) as [id|];
    match goal with |- context [rebuildDisplay ?w0] =>
      pose proof (rebuildDisplay_searchRow w0) as Hrow;
      destruct (rebuildDisplay w0) as [[] w1|]; [|done]
    end;
    intros; simplify_eq; unfold searchRow in Hrow; simpl in Hrow;
    by simplify_eq.
Qed.

(** X11.  From construction on, through every sequence of interface calls,
    clicks on the container, [closeSearch] calls, key presses, clicks on
    remove links and [removeAllOptions], the input row is shown exactly when
    [searchDisplayed] is true.  ([rebuildDisplay] is not among them.) *)
Theorem input_row_shown_iff_search_displayed
    (element : Element) (display : option (option (list Row)))
    (count count' escape : nat)
    (w : MultipleSelect) (xs : list Interaction) :
  construct element display count = Constructed w count' →
  searchDisplayed (interactAll escape xs w)
    = negb (inputOptionHidden (interactAll escape xs w)).
Proof.
  intros [Hd Hh]%construct_shown.
  assert (searchDisplayed w = negb (inputOptionHidden w)) as Hw by (by rewrite Hd, Hh).
  clear Hd Hh. revert w Hw. induction xs as [|x xs IH]; intros w Hw; simpl; [done|].
  by apply IH, interact_shown.
Qed.

Lemma input_row_shown_iff_search_displayed_witness :
  let w := mkMultipleSelect "ms" [mkOption "a" "A" true]
             [mkRow "ms-option-a" "A" "a"] true false true "" [] in
  let xs := [OpenSearch; KeyDown 65; Operate (SelectOptionOp 0); ClickRow 0;
             KeyDown 27; OpenSearch; RemoveAllOptions; CloseSearch] in
  searchDisplayed (interactAll 27 xs w) = negb (inputOptionHidden (interactAll 27 xs w)).
Proof.
  apply (input_row_shown_iff_search_displayed
           (selectElement "ms" [mkOption "a" "A" true]) None 1 1).
  reflexivity.
Defined.

(** X27.  [rebuildDisplay] does not look at the search.  Called while the
    search is displayed, it leaves [searchDisplayed] true and the new input
    row hidden, and a following [openSearch] changes nothing: the row stays
    hidden. *)
Theorem rebuildDisplay_hides_open_search w :
  optionListAttached w = true → distinctIDs w → searchDisplayed w = true →
  ∃ w', rebuildDisplay w = Normal tt w' ∧
        searchDisplayed w' = true ∧ inputOptionHidden w' = true ∧
        openSearch w' = Normal false w'.
Proof.
  intros Hattached Hids Hopen.
  destruct (rebuildDisplay_rows w Hattached Hids)
    as (w' & Hrebuild & _ & _ & _ & Hdisplayed & Hhidden & _).
  exists w'. rewrite Hdisplayed, Hopen. split_and!; try done.
  unfold openSearch. run_method. by rewrite Hdisplayed, Hopen.
Qed.

Lemma rebuildDisplay_hides_open_search_witness :
  ∃ w', rebuildDisplay (stateOf (openSearch fixture)) = Normal tt w' ∧
        searchDisplayed w' = true ∧ inputOptionHidden w' = true ∧
        openSearch w' = Normal false w'.
Proof.
  apply rebuildDisplay_hides_open_search.
  - reflexivity.
  - exact fixture_distinctIDs.
  - reflexivity.
Defined.

(** ** Narrowing the prefix *)

Lemma StronglySorted_sublist {A} (R : relation A) (l1 l2 : list A) :
  l1 `sublist_of` l2 → StronglySorted R l2 → StronglySorted R l1.
Proof.
  induction 1 as [|x l1 l2 Hsub IH|x l1 l2 Hsub IH]; intros Hs; [done|..].
  - apply StronglySorted_cons in Hs as [Hall Hs]. apply StronglySorted_cons.
    split; [|by apply IH]. apply Forall_forall. intros y Hy.
    rewrite Forall_forall in Hall. apply Hall.
    apply (elem_of_submseteq l1 l2 y Hy). by apply sublist_submseteq.
  - apply StronglySorted_cons in Hs as [_ Hs]. by apply IH.
Qed.

(** Of two sorted lists of strings, the one whose elements all occur in the
    other, as often, is a sublist of it. *)
Lemma sorted_submseteq_sublist (l1 l2 : list string) :
  StronglySorted String.le l1 → StronglySorted String.le l2 →
  l1 ⊆+ l2 → l1 `sublist_of` l2.
Proof.
  intros Hs1 Hs2 (l & Hperm & Hsub)%submseteq_sublist_r.
  assert (l1 = l) as ->; [|done].
  apply (StronglySorted_unique String.le); [done| |done].
  by apply (StronglySorted_sublist _ l l2).
Qed.

Lemma prefix_trans (p p' s : string) :
  String.prefix p p' = true → String.prefix p' s = true → String.prefix p s = true.
Proof.
  revert p' s. induction p as [|a p IH]; intros [|a' p'] [|b s]; simpl; try done.
  destruct (ascii_dec a a') as [->|]; [|done].
  destruct (ascii_dec a' b) as [->|]; [|done]. apply IH.
Qed.

Lemma selectableOptionsForPrefix_sorted prefix w :
  StronglySorted String.le (selectableOptionsForPrefix prefix w) ∧
  selectableOptionsForPrefix prefix w ≡ₚ unselectedTexts (hasPrefix prefix) w.
Proof.
  unfold selectableOptionsForPrefix. rewrite selectable_loop.
  fold (unselectedTexts (hasPrefix prefix) w).
  destruct (0 <? _)%nat eqn:E.
  - split; [apply sort_sorted|apply sort_permutation].
  - split; [|done]. apply Nat.ltb_ge in E.
    destruct (unselectedTexts _ w); [constructor|simpl in E; lia].
Qed.

Lemma unselectedTexts_narrow (keep keep' : string → bool) w :
  (∀ text, keep' text = true → keep text = true) →
  unselectedTexts keep' w `sublist_of` unselectedTexts keep w.
Proof.
  intros Himp. unfold unselectedTexts. apply fmap_sublist.
  rewrite <-(list_filter_filter_l
               (λ o, negb (isSelected o) && keep' (getHTML o))
               (λ o, negb (isSelected o) && keep (getHTML o))).
  - apply sublist_filter.
  - intros o [Hsel Hk]%andb_prop_elim. apply andb_prop_intro. split; [done|].
    apply Is_true_true, Himp. by apply Is_true_true.
Qed.

(** X12.  A longer prefix narrows the answer of [selectableOptionsForPrefix]:
    the texts offered for [p'] are, in the same order, among the texts
    offered for a prefix [p] of [p'], and these are among the texts offered
    without a prefix. *)
Theorem selectableOptionsForPrefix_narrows (p p' : string) (w : MultipleSelect) :
  String.prefix p p' = true →
  selectableOptionsForPrefix (Some p') w `sublist_of` selectableOptionsForPrefix (Some p) w ∧
  selectableOptionsForPrefix (Some p) w `sublist_of` selectableOptionsForPrefix None w.
Proof.
  intros Hp.
  destruct (selectableOptionsForPrefix_sorted (Some p') w) as [Hs' Hp'].
  destruct (selectableOptionsForPrefix_sorted (Some p) w) as [Hs Hpp].
  destruct (selectableOptionsForPrefix_sorted None w) as [Hs0 Hp0].
  split; apply sorted_submseteq_sublist; try done.
  - rewrite Hp', Hpp. apply sublist_submseteq, unselectedTexts_narrow.
    intros text. unfold hasPrefix, JS.startsWith. by apply prefix_trans.
  - rewrite Hpp, Hp0. by apply sublist_submseteq, unselectedTexts_narrow.
Qed.

Lemma selectableOptionsForPrefix_narrows_witness :
  let w := stateOf ((deselectOptionWithValue "three" ;;;
                     addOption "two1" "Two1") fixture) in
  selectableOptionsForPrefix (Some "Tw") w `sublist_of` selectableOptionsForPrefix (Some "T") w ∧
  selectableOptionsForPrefix (Some "T") w `sublist_of` selectableOptionsForPrefix None w.
Proof.
  apply selectableOptionsForPrefix_narrows. reflexivity.
Defined.

(** ** Dates *)

Section dates.
Local Open Scope Z_scope.

Lemma truthy_rem (a b : Z) : b ≠ 0 → Num.truthy (Z.rem a b) = false ↔ (b | a).
Proof.
  intros Hb. unfold Num.truthy. rewrite negb_false_iff, Z.eqb_eq.
  by apply Z.rem_divide.
Qed.

(** X13.  [isLeapYear] is the Gregorian rule for every integer year,
    negative years included: a year is a leap year exactly when 4 divides it
    and either 100 does not or 400 does. *)
Theorem isLeapYear_gregorian (year : Z) :
  PrimeDate.isLeapYear year = true ↔
  (4 | year) ∧ (¬ (100 | year) ∨ (400 | year)).
Proof.
  unfold PrimeDate.isLeapYear.
  pose proof (truthy_rem year 4 ltac:(lia)) as H4.
  pose proof (truthy_rem year 100 ltac:(lia)) as H100.
  pose proof (truthy_rem year 400 ltac:(lia)) as H400.
  destruct (Num.truthy (Z.rem year 4)), (Num.truthy (Z.rem year 100)),
    (Num.truthy (Z.rem year 400)); simpl; naive_solver.
Qed.

(** X14.  [numberOfDaysInMonth] answers for the months 0 to 11, with a number
    from 28 to 31, and is [undefined] for every other month. *)
Theorem numberOfDaysInMonth_range (year month : Z) :
  match PrimeDate.numberOfDaysInMonth year month with
  | Some days => 0 ≤ month ≤ 11 ∧ 28 ≤ days ≤ 31
  | None => month < 0 ∨ 11 < month
  end.
Proof.
  unfold PrimeDate.numberOfDaysInMonth.
  destruct (Z.eqb_spec month 1) as [->|Hne]; simpl.
  { destruct (PrimeDate.isLeapYear year); simpl; lia. }
  destruct (Z.ltb_spec month 0) as [|Hge]; [lia|].
  destruct (decide (month ≤ 11)) as [Hle|Hgt].
  - assert (∃ n : nat, month = Z.of_nat n ∧ (n < 12)%nat) as (n & -> & Hn).
    { exists (Z.to_nat month). lia. }
    rewrite Nat2Z.id.
    do 12 (destruct n as [|n]; [simpl; lia|]). lia.
  - rewrite lookup_ge_None_2; [lia|simpl; lia].
Qed.

(** X15.  The twelve months of a year add up to 366 days when [isLeapYear]
    holds of the year, and to 365 days otherwise. *)
Theorem numberOfDaysInMonth_year (year : Z) :
  ∃ days : list Z,
    mapM (PrimeDate.numberOfDaysInMonth year) (Z.of_nat <$> seq 0 12) = Some days ∧
    foldr Z.add 0 days = if PrimeDate.isLeapYear year then 366 else 365.
Proof.
  unfold PrimeDate.numberOfDaysInMonth.
  destruct (PrimeDate.isLeapYear year); eexists; split; reflexivity.
Qed.

(** X16.  For an hour of the day from 0 to 23 [getHourOfDay] gives an hour
    from 1 to 12 that is the same hour modulo 12. *)
Theorem getHourOfDay_range (hours : Z) :
  0 ≤ hours ≤ 23 →
  1 ≤ PrimeDate.getHourOfDay hours ≤ 12 ∧
  PrimeDate.getHourOfDay hours mod 12 = hours mod 12.
Proof.
  intros Hh. unfold PrimeDate.getHourOfDay, Num.truthy.
  rewrite Z.rem_mod_nonneg by lia.
  destruct (Z.eqb_spec ((hours + 24) mod 12) 0) as [E|E]; simpl.
  - split; [lia|]. change (12 mod 12) with 0. rewrite <-E.
    rewrite <-(Z.mod_add hours 2 12) by lia. done.
  - pose proof (Z.mod_pos_bound (hours + 24) 12 ltac:(lia)).
    split; [lia|]. rewrite Z.mod_mod by lia.
    rewrite <-(Z.mod_add hours 2 12) by lia. done.
Qed.

Lemma getHourOfDay_range_witness :
  1 ≤ PrimeDate.getHourOfDay 13 ≤ 12 ∧
  PrimeDate.getHourOfDay 13 mod 12 = 13 mod 12.
Proof.
  apply getHourOfDay_range. lia.
Defined.

End dates.

(** ** The month header of the date picker *)

Section date_picker.
Import DatePicker.
Local Open Scope Z_scope.

Lemma months_defined (month : Z) : 1 ≤ month ≤ 12 → is_Some (months month).
Proof.
  intros H.
  assert (∃ n : nat, month = Z.of_nat n ∧ (1 ≤ n ≤ 12)%nat) as (n & -> & Hn).
  { exists (Z.to_nat month). lia. }
  destruct n as [|n]; [lia|].
  do 12 (destruct n as [|n]; [by eexists|]). lia.
Qed.

Lemma click_invariant (now : Z) (c : Click) (picker : DatePicker) :
  0 ≤ dataMonth picker ≤ 12 →
  monthHTML picker = Some (default "undefined" (months (dataMonth picker))) →
  (dataMonth picker = 0 → now = 0) →
  0 ≤ dataMonth (click c picker) ≤ 12 ∧
  monthHTML (click c picker)
    = Some (default "undefined" (months (dataMonth (click c picker)))) ∧
  (dataMonth (click c picker) = 0 → now = 0).
Proof.
  intros Hrange Hlabel Hzero.
  destruct c; simpl; unfold _handleNextMonth, _handlePreviousMonth.
  - destruct (Z.ltb_spec (dataMonth picker) 12); [|done]. simpl.
    destruct (months_defined (dataMonth picker + 1)) as [name ->]; [lia|].
    split; [lia|]. split; [done|lia].
  - destruct (Z.ltb_spec 1 (dataMonth picker)); [|done]. simpl.
    destruct (months_defined (dataMonth picker - 1)) as [name ->]; [lia|].
    split; [lia|]. split; [done|lia].
Qed.

(** X17.  Opened in the month [now], counted from 0 for January as
    [Date.getMonth] counts, and after any clicks on next and previous:
    [data-month] is between 0 and 12; the label is the entry the table of
    names, which starts at 1, has for [data-month], and the text [undefined]
    where it has none; and [data-month] is 0 only if the picker was opened
    in January. *)
Theorem month_label_follows_data_month (now : Z) (cs : list Click) :
  0 ≤ now ≤ 11 →
  let picker := clicks cs (_buildDatePicker now) in
  0 ≤ dataMonth picker ≤ 12 ∧
  monthHTML picker = Some (default "undefined" (months (dataMonth picker))) ∧
  (dataMonth picker = 0 → now = 0).
Proof.
  intros Hnow. simpl. induction cs as [|c cs IH] using rev_ind.
  - simpl. split; [lia|]. split; [done|lia].
  - unfold clicks in *. rewrite foldl_app. simpl.
    destruct IH as (? & ? & ?). by apply click_invariant.
Qed.

Lemma month_label_follows_data_month_witness :
  let picker := clicks [Previous; Next; Next] (_buildDatePicker 0) in
  0 ≤ dataMonth picker ≤ 12 ∧
  monthHTML picker = Some (default "undefined" (months (dataMonth picker))) ∧
  (dataMonth picker = 0 → 0 = 0).
Proof.
  apply (month_label_follows_data_month 0 [Previous; Next; Next]). lia.
Defined.

(** X18.  When the label is the table's entry for [data-month]: from the
    months 1 to 11 a click on next changes the header and a click on previous
    then brings it back; from the months 2 to 12 likewise with previous
    first; at 12 and above next changes nothing, at 1 and below previous
    changes nothing. *)
Theorem next_and_previous_month_are_inverse (picker : DatePicker) :
  monthHTML picker = months (dataMonth picker) →
  (1 ≤ dataMonth picker < 12 →
   _handleNextMonth picker ≠ picker ∧
   _handlePreviousMonth (_handleNextMonth picker) = picker) ∧
  (1 < dataMonth picker ≤ 12 →
   _handlePreviousMonth picker ≠ picker ∧
   _handleNextMonth (_handlePreviousMonth picker) = picker) ∧
  (12 ≤ dataMonth picker → _handleNextMonth picker = picker) ∧
  (dataMonth picker ≤ 1 → _handlePreviousMonth picker = picker).
Proof.
  destruct picker as [month label]. simpl. intros ->.
  unfold _handleNextMonth, _handlePreviousMonth. simpl.
  repeat split.
  - destruct (Z.ltb_spec month 12); [|lia]. intros [=]. lia.
  - destruct (Z.ltb_spec month 12); [|lia]. simpl.
    destruct (Z.ltb_spec 1 (month + 1)); [|lia].
    by replace (month + 1 - 1) with month by lia.
  - destruct (Z.ltb_spec 1 month); [|lia]. intros [=]. lia.
  - destruct (Z.ltb_spec 1 month); [|lia]. simpl.
    destruct (Z.ltb_spec (month - 1) 12); [|lia].
    by replace (month - 1 + 1) with month by lia.
  - intros. by destruct (Z.ltb_spec month 12); [lia|].
  - intros. by destruct (Z.ltb_spec 1 month); [lia|].
Qed.

Lemma next_and_previous_month_are_inverse_witness :
  let picker := mkDatePicker 11 (Some "November") in
  _handlePreviousMonth (_handleNextMonth picker) = picker.
Proof.
  refine (proj2 (proj1 (next_and_previous_month_are_inverse
                          (mkDatePicker 11 (Some "November")) _) _)).
  - reflexivity.
  - simpl. lia.
Defined.

End date_picker.

(** ** Touch gestures *)

Section touchable.
Import Touchable.
Local Open Scope Z_scope.

Lemma fired_propagate (event : TouchEvent) (t : Touchable) :
  fired (propagate event t) = fired t.
Proof. unfold propagate. by destruct (hasPropagationHandler t). Qed.

Lemma firedNames_fireCustomEvent (name : string) (event : Event.t) (t : Touchable) :
  firedNames (fireCustomEvent name event t) = firedNames t ++ [name].
Proof. unfold firedNames. simpl. by rewrite fmap_app. Qed.

(** What [_finished] fires, read off the distances and the time it finds
    in the fields. *)
Lemma finished_names (dx dy dt : Z) (t : Touchable) :
  touchX t = Some dx → touchY t = Some dy → elapsedTime t = Some dt →
  ∃ names,
    firedNames (_finished t) = firedNames t ++ names ∧
    (names = ["Touchable:swipeLeft"] ↔ 50 < dx ∧ Z.abs dy < dx) ∧
    (names = ["Touchable:swipeRight"] ↔ 50 < - dx ∧ Z.abs dy < - dx) ∧
    (names = ["Touchable:swipeUp"] ↔ 50 < dy ∧ Z.abs dx ≤ dy) ∧
    (names = ["Touchable:swipeDown"] ↔ 50 < - dy ∧ Z.abs dx ≤ - dy) ∧
    (names = ["Touchable:longPress"] ↔
       Z.abs dx ≤ 50 ∧ Z.abs dy ≤ 50 ∧ 500 < dt) ∧
    (names = [] ↔ Z.abs dx ≤ 50 ∧ Z.abs dy ≤ 50 ∧ dt ≤ 500).
Proof.
  intros Hx Hy Ht. unfold _finished. rewrite Hx, Hy, Ht. simpl.
  destruct (Z.ltb_spec 50 (Z.abs dx)), (Z.ltb_spec 50 (Z.abs dy)),
    (Z.ltb_spec (Z.abs dy) (Z.abs dx)), (Z.ltb_spec 500 dt),
    (Z.ltb_spec 0 dx), (Z.ltb_spec 0 dy); simpl.
  all: lazymatch goal with
       | |- ∃ names, firedNames (fireCustomEvent ?name _ _) = _ ∧ _ =>
           exists [name]; split; [apply firedNames_fireCustomEvent|]
       | |- _ => exists []; split; [by rewrite app_nil_r|]
       end.
  all: repeat split; intros; try discriminate; try lia.
Qed.

(** X19.  One finger is put down and lifted; [dx] and [dy] are the distances
    from where it ended to where it started, [dt] is the time between.  The
    gesture returns and fires at most one event: [swipeLeft] exactly when the
    finger ended more than 50 further left and moved further sideways than
    up or down, [swipeRight] likewise to the right; [swipeUp] exactly when
    it ended more than 50 further up and moved at least as far up or down as
    sideways, [swipeDown] likewise down; [longPress] exactly when it moved at
    most 50 both ways and stayed for more than 500; and nothing exactly when
    it moved at most 50 both ways and stayed for at most 500. *)
Theorem gesture_classification (t0 x0 y0 t1 x1 y1 : Z) (t : Touchable) :
  let dx := x0 - x1 in
  let dy := y0 - y1 in
  let dt := t1 - t0 in
  ∃ t' names,
    gesture t0 x0 y0 t1 x1 y1 t = Returns t' ∧
    firedNames t' = firedNames t ++ names ∧
    (names = ["Touchable:swipeLeft"] ↔ 50 < dx ∧ Z.abs dy < dx) ∧
    (names = ["Touchable:swipeRight"] ↔ 50 < - dx ∧ Z.abs dy < - dx) ∧
    (names = ["Touchable:swipeUp"] ↔ 50 < dy ∧ Z.abs dx ≤ dy) ∧
    (names = ["Touchable:swipeDown"] ↔ 50 < - dy ∧ Z.abs dx ≤ - dy) ∧
    (names = ["Touchable:longPress"] ↔
       Z.abs dx ≤ 50 ∧ Z.abs dy ≤ 50 ∧ 500 < dt) ∧
    (names = [] ↔ Z.abs dx ≤ 50 ∧ Z.abs dy ≤ 50 ∧ dt ≤ 500).
Proof.
  intros dx dy dt.
  unfold gesture, _handleTouchStart, _handleTouchEnd, _collectTouchData.
  destruct t as [? ? ? ? ? ? ? ? handler ? ? names0].
  unfold propagate at 2. simpl.
  match goal with
  | |- ∃ t' names, Returns (propagate ?e (_finished ?s)) = _ ∧ _ =>
      destruct (finished_names dx dy dt s) as (names & Hnames & Hcases);
      [by destruct handler..|];
      exists (propagate e (_finished s)), names
  end.
  split; [done|]. split; [|done].
  unfold firedNames in *. rewrite fired_propagate, Hnames.
  by destruct handler.
Qed.

Lemma measures_finished (t : Touchable) : measures (_finished t) = measures t.
Proof. unfold _finished. by repeat case_match. Qed.

Lemma measures_propagate (event : TouchEvent) (t : Touchable) :
  measures (propagate event t) = measures t.
Proof. unfold propagate. by destruct (hasPropagationHandler t). Qed.

(** What [_finished] fires depends on the measures only. *)
Lemma finished_fired (t t' : Touchable) :
  measures t = measures t' →
  ∃ events,
    fired (_finished t) = fired t ++ events ∧
    fired (_finished t') = fired t' ++ events.
Proof.
  unfold measures. intros [= He Hsx Hsy Hex Hey Hx Hy].
  unfold _finished. rewrite He, Hsx, Hsy, Hex, Hey, Hx, Hy.
  repeat case_match; simpl;
    first [ by eexists | exists []; by rewrite !app_nil_r ].
Qed.

(** X20.  After such a gesture, a touch end that reports more than one
    changed touch collects nothing and fires once more what the gesture
    fired, with the same data. *)
Theorem second_touch_end_repeats_event
    (t0 x0 y0 t1 x1 y1 t2 : Z) (touches : list Touch) (t : Touchable) :
  (1 < length touches)%nat →
  ∃ ta tb events,
    gesture t0 x0 y0 t1 x1 y1 t = Returns ta ∧
    fired ta = fired t ++ events ∧
    _handleTouchEnd t2 (mkTouchEvent touches) ta = Returns tb ∧
    fired tb = fired t ++ events ++ events.
Proof.
  intros Htouches.
  unfold gesture, _handleTouchStart, _handleTouchEnd, _collectTouchData.
  simpl. apply Nat.ltb_lt in Htouches. rewrite Htouches.
  match goal with
  | |- ∃ ta tb events, Returns (propagate ?e (_finished ?s)) = _ ∧ _ =>
      destruct (finished_fired s (propagate e (_finished s)))
        as (events & Hfirst & Hsecond);
      [by rewrite measures_propagate, measures_finished|];
      exists (propagate e (_finished s)), 
        (propagate (mkTouchEvent touches)
           (_finished (propagate e (_finished s)))), events
  end.
  split; [done|].
  rewrite !fired_propagate, Hsecond, fired_propagate, Hfirst.
  simpl. rewrite fired_propagate. by rewrite <-(assoc_L (++)).
Qed.

Lemma second_touch_end_repeats_event_witness :
  ∃ ta tb events,
    gesture 0 200 10 100 20 10 (new false) = Returns ta ∧
    fired ta = fired (new false) ++ events ∧
    _handleTouchEnd 900 (mkTouchEvent [mkTouch 0 0; mkTouch 300 300]) ta
      = Returns tb ∧
    fired tb = fired (new false) ++ events ++ events.
Proof.
  apply second_touch_end_repeats_event. simpl. lia.
Defined.

(** X21.  A touch end of one finger on a [Touchable] that has seen no touch
    start returns and fires nothing: the distances and the time are [NaN],
    and every comparison with them is false. *)
Theorem touch_end_before_start_fires_nothing
    (now : Z) (touch : Touch) (t : Touchable) :
  touchStarted t = None → touchStartX t = None → touchStartY t = None →
  ∃ t',
    _handleTouchEnd now (mkTouchEvent [touch]) t = Returns t' ∧
    fired t' = fired t.
Proof.
  intros Hstarted Hx Hy.
  unfold _handleTouchEnd, _collectTouchData. simpl.
  rewrite Hstarted, Hx, Hy. simpl. eexists. split; [done|].
  by rewrite fired_propagate.
Qed.

Lemma touch_end_before_start_fires_nothing_witness :
  ∃ t',
    _handleTouchEnd 1000 (mkTouchEvent [mkTouch 300 0]) (new true) = Returns t' ∧
    fired t' = fired (new true).
Proof.
  by apply touch_end_before_start_fires_nothing.
Defined.

End touchable.

(** ** Listeners on the window *)

Section window_listeners.
Import PrimeWindow.

Lemma listenersFor_app (event : string) (calls calls' : list (string * Listener)) :
  listenersFor event (calls ++ calls')
  = listenersFor event calls ++ listenersFor event calls'.
Proof. unfold listenersFor. by rewrite filter_app, fmap_app. Qed.

Lemma listenersFor_one (event e : string) (l : Listener) :
  listenersFor event [(e, l)] = if decide (e = event) then [l] else [].
Proof.
  unfold listenersFor. rewrite filter_cons. simpl. by destruct (decide (e = event)).
Qed.

Lemma push_pushed (e : string) (l : Listener)
    (table : option (gmap string (list Listener))) :
  ownNames table → (push e l table).2 = negb (inherited e).
Proof.
  intros Hown. unfold push. destruct (inherited e) eqn:He.
  - by rewrite (Hown e He).
  - by destruct (default ∅ table !! e).
Qed.

Lemma push_ownNames (e : string) (l : Listener)
    (table : option (gmap string (list Listener))) :
  ownNames table → ownNames (Some (push e l table).1).
Proof.
  intros Hown event Hevent. specialize (Hown event Hevent). unfold push.
  destruct (default ∅ table !! e) as [listeners|] eqn:E; simpl.
  - rewrite lookup_insert_ne; [done|]. intros ->. by rewrite Hown in E.
  - destruct (inherited e) eqn:He; simpl; [done|].
    rewrite lookup_insert_ne; [done|]. intros ->. by rewrite He in Hevent.
Qed.

Lemma listenersOf_push (event e : string) (l : Listener)
    (table : option (gmap string (list Listener))) :
  ownNames table →
  listenersOf event (Some (push e l table).1)
  = listenersOf event table
      ++ (if inherited e then [] else listenersFor event [(e, l)]).
Proof.
  intros Hown. unfold push, listenersOf. rewrite listenersFor_one.
  destruct (inherited e) eqn:He.
  { rewrite (Hown e He). simpl. by rewrite app_nil_r. }
  destruct (decide (e = event)) as [->|Hne].
  - destruct (default ∅ table !! event); simpl; by rewrite lookup_insert_eq.
  - destruct (default ∅ table !! e); simpl;
      rewrite lookup_insert_ne by done; by rewrite app_nil_r.
Qed.

Lemma colon_not_inherited (event : string) :
  JS.includes event ":" = true → inherited event = false.
Proof.
  intros Hcolon. unfold inherited. apply bool_decide_eq_false. intros Hin.
  unfold objectPrototypeNames in Hin.
  repeat (apply elem_of_cons in Hin as [->|Hin]; [by vm_compute in Hcolon|]).
  by apply elem_of_nil in Hin.
Qed.

(** One call: what it does to the tables and to the browser. *)
Lemma addEventListener_step (event e : string) (l : Listener) (w : Window) :
  plainTables w →
  let w' := stateOf (addEventListener e l w) in
  plainTables w' ∧
  hasAddEventListener w' = hasAddEventListener w ∧
  hasAttachEvent w' = hasAttachEvent w ∧
  listenersOf event (eventListeners w')
  = listenersOf event (eventListeners w)
      ++ (if native e then listenersFor event [(e, l)] else []) ∧
  listenersOf event (customEventListeners w')
  = listenersOf event (customEventListeners w)
      ++ (if JS.includes e ":" then listenersFor event [(e, l)] else []) ∧
  added w'
  = added w ++ (if hasAddEventListener w && native e then [(e, l)] else []) ∧
  attached w'
  = attached w
      ++ (if negb (hasAddEventListener w) && hasAttachEvent w && native e
          then [("on" +:+ e, l)] else []).
Proof.
  intros [Hnative Hcustom]. simpl. unfold addEventListener, native, plainTables.
  destruct (JS.includes e ":") eqn:Hcolon; simpl.
  - pose proof (listenersOf_push event e l _ Hcustom) as Hlisteners.
    pose proof (push_pushed e l _ Hcustom) as Hpushed.
    pose proof (push_ownNames e l _ Hcustom) as Hown.
    rewrite (colon_not_inherited e Hcolon) in Hlisteners, Hpushed.
    destruct (push e l (customEventListeners w)) as [table pushed].
    simpl in Hlisteners, Hpushed, Hown. subst pushed. simpl.
    rewrite ?andb_false_r, ?app_nil_r. by split_and!.
  - pose proof (listenersOf_push event e l _ Hnative) as Hlisteners.
    pose proof (push_pushed e l _ Hnative) as Hpushed.
    pose proof (push_ownNames e l _ Hnative) as Hown.
    destruct (push e l (eventListeners w)) as [table pushed].
    simpl in Hlisteners, Hpushed, Hown. subst pushed.
    destruct (inherited e), (hasAddEventListener w), (hasAttachEvent w);
      simpl; rewrite ?app_nil_r in *; by split_and!.
Qed.

(** Any number of calls. *)
Lemma addEventListeners_steps
    (event : string) (calls : list (string * Listener)) (w : Window) :
  plainTables w →
  let w' := addEventListeners calls w in
  let natives := filter (λ call, native call.1 = true) calls in
  plainTables w' ∧
  hasAddEventListener w' = hasAddEventListener w ∧
  hasAttachEvent w' = hasAttachEvent w ∧
  listenersOf event (eventListeners w')
  = listenersOf event (eventListeners w)
      ++ (if native event then listenersFor event calls else []) ∧
  listenersOf event (customEventListeners w')
  = listenersOf event (customEventListeners w)
      ++ (if JS.includes event ":" then listenersFor event calls else []) ∧
  added w' = added w ++ (if hasAddEventListener w then natives else []) ∧
  attached w'
  = attached w
      ++ (if negb (hasAddEventListener w) && hasAttachEvent w
          then (λ call, ("on" +:+ call.1, call.2)) <$> natives else []).
Proof.
  intros Hplain. simpl. induction calls as [|[e l] calls IH] using rev_ind.
  - simpl. split; [done|]. split; [done|]. split; [done|].
    by destruct (native event), (JS.includes event ":"),
      (hasAddEventListener w), (hasAttachEvent w); rewrite !app_nil_r.
  - unfold addEventListeners in *. rewrite foldl_app. simpl.
    destruct IH as (IHplain & IHadd & IHattach & IHnative & IHcustom
                    & IHadded & IHattached).
    destruct (addEventListener_step event e l _ IHplain)
      as (Hplain' & Hadd & Hattach & Hnative & Hcustom & Hadded & Hattached).
    simpl in Hplain', Hadd, Hattach, Hnative, Hcustom, Hadded, Hattached.
    rewrite Hadd, Hattach, Hnative, Hcustom, Hadded, Hattached, IHadd,
      IHattach, IHnative, IHcustom, IHadded, IHattached.
    rewrite filter_app, filter_cons, fmap_app, !listenersFor_app,
      !listenersFor_one. simpl.
    rewrite <-!(assoc_L (++)).
    split; [done|]. split; [done|]. split; [done|].
    split; [|split; [|split]]; f_equal.
    + destruct (decide (e = event)) as [->|];
        [|by destruct (native e); rewrite !app_nil_r].
      by destruct (native event).
    + destruct (decide (e = event)) as [->|];
        [|by destruct (JS.includes e ":"); rewrite !app_nil_r].
      by destruct (JS.includes event ":").
    + destruct (native e); simpl;
        destruct (hasAddEventListener w); simpl; by rewrite ?app_nil_r.
    + destruct (native e); simpl;
        destruct (hasAddEventListener w), (hasAttachEvent w); simpl;
        by rewrite ?app_nil_r.
Qed.

Lemma freshWindow_plainTables (hasAdd hasAttach : bool) :
  plainTables (freshWindow hasAdd hasAttach).
Proof. by split. Qed.

(** X22.  On a page where only [addEventListener] writes the two tables, and
    after any sequence of its calls, those that throw included:
    [eventListeners] holds for an event whose name has no colon, after the
    listeners it held before, the listeners of the calls made with that
    name, in the order of the calls and as often as they were passed;
    [customEventListeners] does the same for the names with a colon.
    Neither table gains a listener for a name of the other kind, and none is
    recorded for a name that [Object.prototype] has. *)
Theorem listeners_recorded_in_call_order
    (calls : list (string * Listener)) (w : Window) (event : string) :
  plainTables w →
  let w' := addEventListeners calls w in
  listenersOf event (eventListeners w')
  = listenersOf event (eventListeners w)
      ++ (if native event then listenersFor event calls else []) ∧
  listenersOf event (customEventListeners w')
  = listenersOf event (customEventListeners w)
      ++ (if JS.includes event ":" then listenersFor event calls else []).
Proof.
  intros Hplain.
  destruct (addEventListeners_steps event calls w Hplain)
    as (_ & _ & _ & Hnative & Hcustom & _).
  by split.
Qed.

Lemma listeners_recorded_in_call_order_witness :
  let calls := [("resize", 1); ("dialog:open", 2); ("toString", 3);
                ("resize", 4); ("scroll", 5); ("resize", 1)] in
  let w' := addEventListeners calls (freshWindow false false) in
  listenersOf "resize" (eventListeners w')
  = listenersOf "resize" (eventListeners (freshWindow false false))
      ++ (if native "resize" then listenersFor "resize" calls else []) ∧
  listenersOf "resize" (customEventListeners w')
  = listenersOf "resize" (customEventListeners (freshWindow false false))
      ++ (if JS.includes "resize" ":" then listenersFor "resize" calls else []).
Proof.
  apply listeners_recorded_in_call_order. apply freshWindow_plainTables.
Defined.

(** X23.  On such a page the browser is handed exactly the calls for native
    events, in the order they were made: through [window.addEventListener]
    when the browser has it, otherwise through [attachEvent], with [on]
    before the name, when it has that, and otherwise not at all.  An event
    with a colon in its name never reaches the browser. *)
Theorem only_native_events_reach_the_browser
    (calls : list (string * Listener)) (w : Window) :
  plainTables w →
  let w' := addEventListeners calls w in
  let natives := filter (λ call, native call.1 = true) calls in
  added w' = added w ++ (if hasAddEventListener w then natives else []) ∧
  attached w'
  = attached w
      ++ (if negb (hasAddEventListener w) && hasAttachEvent w
          then (λ call, ("on" +:+ call.1, call.2)) <$> natives else []).
Proof.
  intros Hplain.
  destruct (addEventListeners_steps "" calls w Hplain)
    as (_ & _ & _ & _ & _ & Hadded & Hattached).
  by split.
Qed.

Lemma only_native_events_reach_the_browser_witness :
  let calls := [("resize", 1); ("dialog:open", 2); ("toString", 3);
                ("resize", 4)] in
  let w := freshWindow false true in
  let w' := addEventListeners calls w in
  let natives := filter (λ call, native call.1 = true) calls in
  added w' = added w ++ (if hasAddEventListener w then natives else []) ∧
  attached w'
  = attached w
      ++ (if negb (hasAddEventListener w) && hasAttachEvent w
          then (λ call, ("on" +:+ call.1, call.2)) <$> natives else []).
Proof.
  apply only_native_events_reach_the_browser. apply freshWindow_plainTables.
Defined.

End window_listeners.

(** ** The measures of the window *)

Section window_measures.
Import PrimeWindow.
Local Open Scope Z_scope.

Lemma measure_None (read : Box → Z) (element : option Box) :
  measure read element = None ↔ from_option read 0 element = 0.
Proof.
  unfold measure, Num.truthy. destruct element as [box|]; simpl; [|done].
  by destruct (Z.eqb_spec (read box) 0).
Qed.

Lemma measure_Some (read : Box → Z) (element : option Box) (n : Z) :
  measure read element = Some n → n ≠ 0.
Proof.
  unfold measure, Num.truthy. destruct element as [box|]; simpl; [|done].
  destruct (Z.eqb_spec (read box) 0); naive_solver.
Qed.

(** The three sources of a measure, tried in turn. *)
Lemma first_measure (own first second : option Z) (e : Exn) :
  (∀ n, first = Some n → n ≠ 0) → (∀ n, second = Some n → n ≠ 0) →
  let answer : Exn + Z :=
    match own with
    | Some n => inr n
    | None =>
        match first with
        | Some n => inr n
        | None => match second with Some n => inr n | None => inl e end
        end
    end in
  (answer = inr 0 ↔ own = Some 0) ∧
  ((∃ e', answer = inl e') ↔ own = None ∧ first = None ∧ second = None).
Proof.
  intros Hfirst Hsecond. simpl.
  destruct own as [n|]; [split; split; [by intros [= ->]|by intros [= ->]|by intros [? ?]|by intros [? ?]]|].
  destruct first as [n|].
  { specialize (Hfirst n eq_refl).
    split; split; [intros [=]; lia|done|by intros [? ?]|by intros (_ & ? & _)]. }
  destruct second as [n|].
  { specialize (Hsecond n eq_refl).
    split; split; [intros [=]; lia|done|by intros [? ?]|by intros (_ & _ & ?)]. }
  split; split; [done|done|done|by eexists].
Qed.

(** X24.  [getScrollTop] answers 0 only when [pageYOffset] is the number 0.
    Without a numeric [pageYOffset] it throws exactly when neither the body
    nor the document element is scrolled: for a page at its top it throws
    rather than answer 0. *)
Theorem getScrollTop_never_falls_back_to_zero (v : Viewport) :
  (getScrollTop v = inr 0 ↔ pageYOffset v = Some 0) ∧
  ((∃ e, getScrollTop v = inl e) ↔
   pageYOffset v = None ∧
   from_option scrollTop 0 (body v) = 0 ∧
   from_option scrollTop 0 (documentElement v) = 0).
Proof.
  rewrite <-!measure_None. apply first_measure; apply measure_Some.
Qed.

(** X25.  [getInnerHeight] answers 0 only when [innerHeight] is the number
    0, and without a numeric [innerHeight] it throws exactly when the
    document element and the body have no height other than 0;
    [getInnerWidth] does the same with the widths. *)
Theorem inner_size_never_falls_back_to_zero (v : Viewport) :
  ((getInnerHeight v = inr 0 ↔ innerHeight v = Some 0) ∧
   ((∃ e, getInnerHeight v = inl e) ↔
    innerHeight v = None ∧
    from_option clientHeight 0 (documentElement v) = 0 ∧
    from_option clientHeight 0 (body v) = 0)) ∧
  ((getInnerWidth v = inr 0 ↔ innerWidth v = Some 0) ∧
   ((∃ e, getInnerWidth v = inl e) ↔
    innerWidth v = None ∧
    from_option clientWidth 0 (documentElement v) = 0 ∧
    from_option clientWidth 0 (body v) = 0)).
Proof.
  rewrite <-!measure_None. split; apply first_measure; apply measure_Some.
Qed.

End window_measures.

(** ** The highest dialog *)

Section dialogs.
Import AJAXDialog.
Local Open Scope Z_scope.

Lemma determineZIndex_from (start : Z) (dialogs : list Dialog) :
  let highest :=
    foldl (λ highestZIndex dialog,
             if isVisible dialog && Num.gt (zIndex dialog) (Some highestZIndex)
             then default highestZIndex (zIndex dialog)
             else highestZIndex)
          start dialogs in
  start ≤ highest ∧
  (∀ dialog z, dialog ∈ dialogs → isVisible dialog = true →
               zIndex dialog = Some z → z ≤ highest) ∧
  (highest = start ∨
   ∃ dialog, dialog ∈ dialogs ∧ isVisible dialog = true ∧
             zIndex dialog = Some highest).
Proof.
  simpl. revert start. induction dialogs as [|d dialogs IH]; intros start.
  { simpl. split; [lia|]. split; [|by left]. by intros ? ? ?%elem_of_nil. }
  simpl.
  match goal with
  | |- context [foldl _ ?start' dialogs] =>
      destruct (IH start') as (Hle & Hmax & Hfrom);
      assert (start ≤ start' ∧
              (∀ z, isVisible d = true → zIndex d = Some z → z ≤ start') ∧
              (start' = start ∨ isVisible d = true ∧ zIndex d = Some start'))
        as (Hstart & Hd & Hnew)
  end.
  { destruct (isVisible d), (zIndex d) as [z|]; simpl;
      try destruct (Z.ltb_spec start z); simpl; naive_solver lia. }
  split; [lia|]. split.
  - intros dialog z [->|Hin]%elem_of_cons Hvisible Hz.
    + specialize (Hd z Hvisible Hz). lia.
    + by apply (Hmax dialog).
  - destruct Hfrom as [->|(dialog & Hin & Hvisible & Hz)].
    + destruct Hnew as [->|[Hvisible Hz]]; [by left|].
      right. exists d. split; [by left|done].
    + right. exists dialog. split; [by right|done].
Qed.

(** X26.  [determineZIndex] is the highest z-index of the visible dialogs, and
    0 when none of them has a positive one: it is never negative, no visible
    dialog has a higher z-index, and it is 0 or the z-index of a visible
    dialog. *)
Theorem determineZIndex_highest_visible (dialogs : list Dialog) :
  let highest := determineZIndex dialogs in
  0 ≤ highest ∧
  (∀ dialog z, dialog ∈ dialogs → isVisible dialog = true →
               zIndex dialog = Some z → z ≤ highest) ∧
  (highest = 0 ∨
   ∃ dialog, dialog ∈ dialogs ∧ isVisible dialog = true ∧
             zIndex dialog = Some highest).
Proof. apply determineZIndex_from. Qed.

End dialogs.
